(** * react19-nexus: the event bus and the optimistic overlay

    A shallow embedding of

    - [src/shared/utils/eventBus.ts] (class [EventBus]),
    - the [useOptimistic] reducers of [src/components/TodoListEnhanced.tsx]
      and [src/features/tasks/components/TaskList.tsx],
    - the form action of [src/features/tasks/components/TaskInput.tsx],

    together with the properties the specification states about them. *)

From Stdlib Require Import ZArith NArith Lia.
From stdpp Require Import base tactics option list gmap strings.

(** ** The event bus *)

Module Bus.

(** Array objects are held by reference: [this.events[event]] is a reference
    into the store of arrays, [push] updates the array behind the reference,
    [filter] builds a new array. *)
Abbreviation loc := nat.

(** Functions are compared by reference ([cb !== callback]).  [User f] is the
    function number [f] of the application; [OnceCallback n event f] is the
    closure [onceCallback] built by the [n]-th call of [once], which closes
    over [event] and over the application's function [f].  A wrapper is never
    handed back to the application ([once] returns [void]). *)
Inductive callback : Type :=
| User (f : nat)
| OnceCallback (n : nat) (event : string) (f : nat).

#[global] Instance callback_eq_dec : EqDecision callback.
Proof. solve_decision. Defined.

Inductive outcome : Type := Returned | Threw.

(** How a method of the bus ends: it returns a value, or a [TypeError]
    leaves it.  Nothing is written to the bus before the [TypeError]s of
    this class are thrown, so the bus is then as it was. *)
Inductive completion (A : Type) : Type :=
| Normal (a : A)
| TypeError.
Arguments Normal {A} a.
Arguments TypeError {A}.

(** [this.events] is made by the object literal [{}]: a name the bus has not
    set on it itself is looked up in [Object.prototype].  These are the names
    of the properties of [Object.prototype] (ECMAScript, with its Annex B);
    the application is taken not to add properties to [Object.prototype]. *)
Definition prototype_names : list string :=
  ["constructor"; "hasOwnProperty"; "isPrototypeOf"; "propertyIsEnumerable";
   "toLocaleString"; "toString"; "valueOf"; "__proto__";
   "__defineGetter__"; "__defineSetter__"; "__lookupGetter__";
   "__lookupSetter__"].

Definition inherited (event : string) : bool :=
  existsb (String.eqb event) prototype_names.

(** What [this.events[event]] evaluates to: [undefined], one of the arrays
    of the bus, or a property of [Object.prototype].  The latter are
    functions (and, for ["__proto__"], [Object.prototype] itself): truthy
    values without a method [push], [filter] or [forEach]. *)
Inductive property : Type :=
| Undefined
| Array (a : loc)
| Inherited.

#[global] Instance property_eq_dec : EqDecision property.
Proof. solve_decision. Defined.

Section EventBus.
Context {Data W : Type}.

(** The body of an application function: the calls it makes on the bus, its
    accesses to the variables it closes over ([W]), and how it ends.  Calling
    the closure [on(event, f)] returned is [CallOff event f]. *)
Inductive prog : Type :=
| Return
| Throw
| CallOn (event : string) (f : nat) (k : prog)
| CallOff (event : string) (f : nat) (k : prog)
| CallOnce (event : string) (f : nat) (k : prog)
| CallEmit (event : string) (d : Data) (k : prog)
| CallClear (k : prog)
| Load (k : W -> prog)
| Store (w : W) (k : prog).

(** [events] holds the own properties of the object [this.events];
    [arrays] holds the array objects created so far;
    [closures] counts the [onceCallback] closures created so far; [world] is
    the state of the variables the application's functions close over. *)
Record state : Type := State {
  events : gmap string loc;
  arrays : list (list callback);
  closures : nat;
  world : W
}.

Definition set_events (m : gmap string loc) (s : state) : state :=
  State m (arrays s) (closures s) (world s).
Definition set_arrays (h : list (list callback)) (s : state) : state :=
  State (events s) h (closures s) (world s).
Definition set_closures (n : nat) (s : state) : state :=
  State (events s) (arrays s) n (world s).
Definition set_world (w : W) (s : state) : state :=
  State (events s) (arrays s) (closures s) w.

(** [new EventBus()] *)
Definition initial (w : W) : state := State ∅ [] 0 w.

(** What the calls leave on the console and on the call stack: each call of a
    function with its argument, the calls made while it ran, and how it ended;
    and each [console.error] of [emit]. *)
#[local] Unset Elimination Schemes.
Inductive entry : Type :=
| Invoked (cb : callback) (d : Data) (inner : list entry) (res : outcome)
| ConsoleError (event : string).
#[local] Set Elimination Schemes.

(** [this.events[event]]: the own property when there is one, else what
    [Object.prototype] has under that name. *)
Definition events_get (s : state) (event : string) : property :=
  match events s !! event with
  | Some a => Array a
  | None => if inherited event then Inherited else Undefined
  end.

(** The callbacks registered under [event]: the array the bus holds for it,
    read through the reference. *)
Definition subscribers (s : state) (event : string) : list callback :=
  match events s !! event with
  | Some a => default [] (arrays s !! a)
  | None => []
  end.

(** [off(event, callback)].  An inherited property passes the guard, and
    the call of its [filter], which is [undefined], throws. *)
Definition off (event : string) (cb : callback) (s : state) : completion state :=
  match events_get s event with
  | Undefined => Normal s
  | Inherited => TypeError
  | Array a =>
      let filtered := filter (λ c, c ≠ cb) (default [] (arrays s !! a)) in
      let s1 := set_events (<[event := length (arrays s)]> (events s))
                  (set_arrays (arrays s ++ [filtered]) s) in
      Normal (if Nat.eqb (length filtered) 0
              then set_events (delete event (events s1)) s1
              else s1)
  end.

(** [on(event, callback)]: the new state and the returned closure
    [() => this.off(event, callback)].  An inherited property is truthy, so
    no array is made for it, and the call of its [push] throws. *)
Definition on (event : string) (cb : callback) (s : state)
  : completion (state * (state -> completion state)) :=
  let s1 := match events_get s event with
            | Undefined => set_events (<[event := length (arrays s)]> (events s))
                             (set_arrays (arrays s ++ [[]]) s)
            | _ => s
            end in
  match events_get s1 event with
  | Array a =>
      Normal (set_arrays (alter (λ l, l ++ [cb]) a (arrays s1)) s1, off event cb)
  | _ => TypeError
  end.

(** [once(event, callback)] *)
Definition once (event : string) (f : nat) (s : state) : completion state :=
  let onceCallback := OnceCallback (closures s) event f in
  match on event onceCallback (set_closures (S (closures s)) s) with
  | Normal (s1, _) => Normal s1
  | TypeError => TypeError
  end.

(** [clear()] *)
Definition clear (s : state) : state := set_events ∅ s.

(** [getEvents()]: the names [Object.keys(this.events)] returns, as a set. *)
Definition getEvents (s : state) : gset string := dom (events s).

Section Interp.
Variable call : callback -> Data -> state -> option (outcome * state * entry).

(** [Array.prototype.forEach] on the array behind [a], with the [try]/[catch]
    of [emit] as its callback: the length is read once ([n] indices are left,
    from [k] on), each element is read from the array when its turn comes,
    and an index that holds nothing is skipped. *)
Fixpoint forEach (a : loc) (k n : nat) (event : string) (d : Data) (s : state)
  : option (state * list entry) :=
  match n with
  | 0 => Some (s, [])
  | S n' =>
      match arrays s !! a ≫= (λ l, l !! k) with
      | None => forEach a (S k) n' event d s
      | Some cb =>
          match call cb d s with
          | None => None
          | Some (r, s1, t) =>
              match forEach a (S k) n' event d s1 with
              | None => None
              | Some (s2, ts) =>
                  Some (s2, match r with
                            | Returned => t :: ts
                            | Threw => t :: ConsoleError event :: ts
                            end)
              end
          end
      end
  end.

(** [emit(event, data)].  An inherited property passes the guard, and the
    call of its [forEach], which is [undefined], throws, outside the [try]
    of the callbacks: the exception reaches the caller of [emit]. *)
Definition emit (event : string) (d : Data) (s : state)
  : option (outcome * state * list entry) :=
  match events_get s event with
  | Undefined => Some (Returned, s, [])
  | Inherited => Some (Threw, s, [])
  | Array a =>
      match forEach a 0 (length (default [] (arrays s !! a))) event d s with
      | None => None
      | Some (s1, tr) => Some (Returned, s1, tr)
      end
  end.

(** A body runs until it returns or something in it throws; none of the
    application's functions catches exceptions. *)
Fixpoint run (p : prog) (s : state) : option (outcome * state * list entry) :=
  match p with
  | Return => Some (Returned, s, [])
  | Throw => Some (Threw, s, [])
  | CallOn event f k =>
      match on event (User f) s with
      | Normal (s1, _) => run k s1
      | TypeError => Some (Threw, s, [])
      end
  | CallOff event f k =>
      match off event (User f) s with
      | Normal s1 => run k s1
      | TypeError => Some (Threw, s, [])
      end
  | CallOnce event f k =>
      match once event f s with
      | Normal s1 => run k s1
      | TypeError => Some (Threw, s, [])
      end
  | CallEmit event d k =>
      match emit event d s with
      | None => None
      | Some (Threw, s1, t1) => Some (Threw, s1, t1)
      | Some (Returned, s1, t1) =>
          match run k s1 with
          | None => None
          | Some (r, s2, t2) => Some (r, s2, t1 ++ t2)
          end
      end
  | CallClear k => run k (clear s)
  | Load k => run (k (world s)) s
  | Store w k => run k (set_world w s)
  end.

End Interp.

(** The bodies of the application's functions. *)
Variable code : nat -> Data -> prog.

(** Calling a function value.  [fuel] bounds the depth of the call stack:
    [None] stands for a stack deeper than [fuel]. *)
Fixpoint call (fuel : nat) (cb : callback) (d : Data) (s : state)
  : option (outcome * state * entry) :=
  match fuel with
  | 0 => None
  | S fuel' =>
      match cb with
      | User f =>
          match run (call fuel') (code f d) s with
          | None => None
          | Some (r, s1, t) => Some (r, s1, Invoked cb d t r)
          end
      | OnceCallback _ event f =>
          (* callback(data); this.off(event, onceCallback); *)
          match call fuel' (User f) d s with
          | None => None
          | Some (Threw, s1, t) => Some (Threw, s1, Invoked cb d [t] Threw)
          | Some (Returned, s1, t) =>
              match off event cb s1 with
              | Normal s2 => Some (Returned, s2, Invoked cb d [t] Returned)
              | TypeError => Some (Threw, s1, Invoked cb d [t] Threw)
              end
          end
      end
  end.

(** [eventBus.emit(event, data)] called by the application. *)
Definition publish (fuel : nat) (event : string) (d : Data) (s : state)
  : option (outcome * state * list entry) :=
  emit (call fuel) event d s.
(** *** Notions used to state the properties *)

Implicit Types (s : state) (cb : callback) (event : string).

(** The bus after a call of [off], [on] or [once], whether the call returned
    or threw. *)
Definition after_off event cb s : state :=
  match off event cb s with
  | Normal s1 => s1
  | TypeError => s
  end.

Definition after_on event cb s : state :=
  match on event cb s with
  | Normal (s1, _) => s1
  | TypeError => s
  end.

Definition after_once event (f : nat) s : state :=
  match once event f s with
  | Normal s1 => s1
  | TypeError => s
  end.

(** The states the bus can be in: every event refers to an array that
    exists, and no two events refer to the same array. *)
Definition wf s : Prop :=
  map_Forall (λ _ a, a < length (arrays s)) (events s) /\
  (forall e1 e2 a, events s !! e1 = Some a -> events s !! e2 = Some a -> e1 = e2).

(** No event is registered with an empty array. *)
Definition tidy s : Prop :=
  forall event, is_Some (events s !! event) -> subscribers s event ≠ [].

(** No own property of [this.events] has a name that [Object.prototype]
    has too. *)
Definition plain s : Prop :=
  forall event, inherited event = true -> events s !! event = None.

(** The states an application can bring the bus into, starting from
    [new EventBus()]: by its own calls of [on], [off], [once], [clear] and
    [emit], and by assignments to its own variables. *)
Inductive reachable : state -> Prop :=
| reachable_initial w : reachable (initial w)
| reachable_on event f s : reachable s -> reachable (after_on event (User f) s)
| reachable_off event f s : reachable s -> reachable (after_off event (User f) s)
| reachable_once event f s : reachable s -> reachable (after_once event f s)
| reachable_clear s : reachable s -> reachable (clear s)
| reachable_world w s : reachable s -> reachable (set_world w s)
| reachable_publish fuel event d s r s' tr :
    reachable s -> publish fuel event d s = Some (r, s', tr) -> reachable s'.

(** Every array of [s] is still there in [s'], with the same elements at the
    same indices, and maybe more elements after them. *)
Definition extends s s' : Prop :=
  forall a l, arrays s !! a = Some l -> exists l', arrays s' !! a = Some (l ++ l').

(** What the specification asks of [publish]: the callbacks of a copy of the
    subscriber list are called one after the other with [d], each in the
    state the one before it left, whatever has become of the list itself;
    an exception of a callback is caught and logged, and the next callback
    is called. *)
Fixpoint call_in_turn (fuel : nat) event (d : Data) (cbs : list callback) s
  : option (state * list entry) :=
  match cbs with
  | [] => Some (s, [])
  | cb :: cbs' =>
      match call fuel cb d s with
      | None => None
      | Some (r, s1, t) =>
          match call_in_turn fuel event d cbs' s1 with
          | None => None
          | Some (s2, ts) =>
              Some (s2, match r with
                        | Returned => t :: ts
                        | Threw => t :: ConsoleError event :: ts
                        end)
          end
      end
  end.

(** The calls [emit] makes itself. *)
Definition top_calls (tr : list entry) : list (callback * Data) :=
  omap (λ t, match t with
             | Invoked cb d _ _ => Some (cb, d)
             | ConsoleError _ => None
             end) tr.

(** Every call in a log, at any depth. *)
Fixpoint calls_of (t : entry) : list (callback * Data) :=
  match t with
  | Invoked cb d inner _ =>
      (cb, d) :: (fix go (l : list entry) : list (callback * Data) :=
                    match l with
                    | [] => []
                    | x :: l' => calls_of x ++ go l'
                    end) inner
  | ConsoleError _ => []
  end.

Definition all_calls (tr : list entry) : list (callback * Data) :=
  concat (map calls_of tr).

(** A body that never calls [emit]. *)
Fixpoint emit_free (p : prog) : Prop :=
  match p with
  | Return | Throw => True
  | CallOn _ _ k | CallOff _ _ k | CallOnce _ _ k | CallClear k | Store _ k =>
      emit_free k
  | CallEmit _ _ _ => False
  | Load k => forall w, emit_free (k w)
  end.

(** *** Facts about the bus *)

Lemma extends_refl s : extends s s.
Proof. intros a l H. exists []. by rewrite app_nil_r. Qed.

Lemma extends_trans s1 s2 s3 : extends s1 s2 -> extends s2 s3 -> extends s1 s3.
Proof.
  intros H12 H23 a l H.
  destruct (H12 a l H) as [l1 H1]. destruct (H23 a _ H1) as [l2 H2].
  exists (l1 ++ l2). by rewrite app_assoc.
Qed.

Lemma filter_ne_id cb (l : list callback) :
  cb ∉ l -> filter (λ c, c ≠ cb) l = l.
Proof.
  induction l as [|c l IH]; intros Hn; [done|].
  rewrite filter_cons. apply not_elem_of_cons in Hn as [Hne Hn].
  destruct (decide (c ≠ cb)) as [|Hd]; [by rewrite IH|]. destruct Hd. congruence.
Qed.

Lemma inherited_prototype_names event :
  inherited event = true <-> event ∈ prototype_names.
Proof.
  unfold inherited. rewrite existsb_exists. split.
  - intros [x [Hin Hx]]. apply String.eqb_eq in Hx as ->.
    by apply list_elem_of_In.
  - intros Hin. exists event. split; [by apply list_elem_of_In|].
    apply String.eqb_refl.
Qed.

(** [this.events[event]] is an array exactly when the bus has set one. *)
Lemma events_get_Array s event a :
  events_get s event = Array a <-> events s !! event = Some a.
Proof.
  unfold events_get. destruct (events s !! event) as [a'|].
  - split; intros H; by inversion H.
  - by destruct (inherited event).
Qed.

Lemma events_get_ordinary s event :
  inherited event = false -> events_get s event ≠ Inherited.
Proof.
  intros Hord. unfold events_get.
  destruct (events s !! event); [done|]. by rewrite Hord.
Qed.

Lemma events_get_subscribed s event :
  subscribers s event ≠ [] -> events_get s event ≠ Inherited.
Proof.
  unfold subscribers, events_get. by destruct (events s !! event).
Qed.

(** [off] and [on] throw exactly when [this.events[event]] is inherited. *)
Lemma off_returns event cb s :
  events_get s event ≠ Inherited -> off event cb s = Normal (after_off event cb s).
Proof.
  intros Hget. unfold after_off, off. by destruct (events_get s event).
Qed.

Lemma off_throws event cb s :
  events_get s event = Inherited -> off event cb s = TypeError.
Proof. intros Hget. unfold off. by rewrite Hget. Qed.

Lemma off_Normal event cb s s1 :
  off event cb s = Normal s1 ->
  s1 = after_off event cb s /\ events_get s event ≠ Inherited.
Proof.
  intros H. unfold after_off. rewrite H. split; [done|].
  intros Hget. by rewrite (off_throws _ _ _ Hget) in H.
Qed.

Lemma on_throws event cb s :
  events_get s event = Inherited -> on event cb s = TypeError.
Proof. intros Hget. unfold on. rewrite Hget. by rewrite Hget. Qed.

Lemma on_returns event cb s :
  events_get s event ≠ Inherited ->
  on event cb s = Normal (after_on event cb s, off event cb).
Proof.
  intros Hget. unfold after_on, on, events_get in *.
  destruct (events s !! event) as [a|] eqn:E.
  - by rewrite E.
  - destruct (inherited event); [done|]. simpl. by rewrite lookup_insert_eq.
Qed.

Lemma on_Normal event cb s s1 h :
  on event cb s = Normal (s1, h) ->
  s1 = after_on event cb s /\ h = off event cb /\
  events_get s event ≠ Inherited.
Proof.
  intros H.
  assert (Hget : events_get s event ≠ Inherited).
  { intros Hget. by rewrite (on_throws _ _ _ Hget) in H. }
  rewrite (on_returns _ _ _ Hget) in H. by inversion H.
Qed.

Lemma once_returns event f s :
  events_get s event ≠ Inherited -> once event f s = Normal (after_once event f s).
Proof.
  intros Hget. unfold after_once, once.
  by rewrite (on_returns _ _ (set_closures _ s)).
Qed.

Lemma once_throws event f s :
  events_get s event = Inherited -> once event f s = TypeError.
Proof.
  intros Hget. unfold once. by rewrite (on_throws _ _ (set_closures _ s)).
Qed.

Lemma once_Normal event f s s1 :
  once event f s = Normal s1 ->
  s1 = after_once event f s /\ events_get s event ≠ Inherited.
Proof.
  intros H. unfold after_once. rewrite H. split; [done|].
  intros Hget. by rewrite (once_throws _ _ _ Hget) in H.
Qed.

(** The bus after [off], in terms of the own properties of [this.events]. *)
Lemma after_off_unfold event cb s :
  after_off event cb s =
  match events s !! event with
  | None => s
  | Some a =>
      let filtered := filter (λ c, c ≠ cb) (default [] (arrays s !! a)) in
      let s1 := set_events (<[event := length (arrays s)]> (events s))
                  (set_arrays (arrays s ++ [filtered]) s) in
      if Nat.eqb (length filtered) 0
      then set_events (delete event (events s1)) s1
      else s1
  end.
Proof.
  unfold after_off, off, events_get.
  destruct (events s !! event); [done|]. by destruct (inherited event).
Qed.

Lemma after_on_thrown event cb s :
  events_get s event = Inherited -> after_on event cb s = s.
Proof. intros Hget. unfold after_on. by rewrite on_throws. Qed.

Lemma after_on_unfold event cb s :
  events_get s event ≠ Inherited ->
  after_on event cb s =
  let s1 := match events s !! event with
            | Some _ => s
            | None => set_events (<[event := length (arrays s)]> (events s))
                        (set_arrays (arrays s ++ [[]]) s)
            end in
  match events s1 !! event with
  | Some a => set_arrays (alter (λ l, l ++ [cb]) a (arrays s1)) s1
  | None => s1
  end.
Proof.
  intros Hget. unfold after_on, on, events_get in *.
  destruct (events s !! event) as [a|] eqn:E.
  - by rewrite E.
  - destruct (inherited event); [done|]. simpl. by rewrite lookup_insert_eq.
Qed.

Lemma after_once_unfold event f s :
  events_get s event ≠ Inherited ->
  after_once event f s =
  after_on event (OnceCallback (closures s) event f)
    (set_closures (S (closures s)) s).
Proof.
  intros Hget. unfold after_once, once.
  by rewrite (on_returns _ _ (set_closures _ s)).
Qed.

Lemma after_once_thrown event f s :
  events_get s event = Inherited -> after_once event f s = s.
Proof. intros Hget. unfold after_once. by rewrite once_throws. Qed.

Lemma off_subscribers event cb s :
  subscribers (after_off event cb s) event =
  filter (λ c, c ≠ cb) (subscribers s event).
Proof.
  rewrite after_off_unfold.
  unfold subscribers. destruct (events s !! event) as [a|] eqn:E; simpl.
  - destruct (Nat.eqb_spec (length (filter (λ c, c ≠ cb) (default [] (arrays s !! a)))) 0) as [H0|H0]; simpl.
    + rewrite lookup_delete_eq. apply nil_length_inv in H0. by rewrite H0.
    + rewrite lookup_insert_eq. by rewrite list_lookup_middle.
  - by rewrite E.
Qed.

Lemma off_subscribers_ne event event' cb s :
  wf s -> event' ≠ event ->
  subscribers (after_off event cb s) event' = subscribers s event'.
Proof.
  intros [Hwf _] Hne. rewrite after_off_unfold. unfold subscribers.
  destruct (events s !! event) as [a|] eqn:E; simpl; [|done].
  destruct (Nat.eqb (length _) 0); simpl.
  - rewrite lookup_delete_ne by done. rewrite lookup_insert_ne by done.
    destruct (events s !! event') as [a'|] eqn:E'; [|done].
    apply Hwf in E'. by rewrite lookup_app_l.
  - rewrite lookup_insert_ne by done.
    destruct (events s !! event') as [a'|] eqn:E'; [|done].
    apply Hwf in E'. by rewrite lookup_app_l.
Qed.

Lemma on_subscribers event cb s :
  wf s -> events_get s event ≠ Inherited ->
  subscribers (after_on event cb s) event = subscribers s event ++ [cb].
Proof.
  intros [Hwf _] Hget. rewrite after_on_unfold by done.
  unfold subscribers. simpl.
  destruct (events s !! event) as [a|] eqn:E; simpl.
  - rewrite E. simpl. rewrite E. apply Hwf in E.
    destruct (lookup_lt_is_Some_2 _ _ E) as [l Hl].
    rewrite list_lookup_alter_eq. rewrite Hl. done.
  - rewrite !lookup_insert_eq. simpl. rewrite lookup_insert_eq.
    rewrite list_lookup_alter_eq. by rewrite list_lookup_middle.
Qed.

Lemma on_subscribers_ne event event' cb s :
  wf s -> event' ≠ event ->
  subscribers (after_on event cb s) event' = subscribers s event'.
Proof.
  intros [Hwf Hinj] Hne.
  destruct (decide (events_get s event = Inherited)) as [Hi|Hget];
    [by rewrite after_on_thrown|].
  rewrite after_on_unfold by done. unfold subscribers. simpl.
  destruct (events s !! event) as [a|] eqn:E; simpl.
  - rewrite E. simpl.
    destruct (events s !! event') as [a'|] eqn:E'; [|done].
    destruct (decide (a' = a)) as [->|Hn].
    + destruct Hne. eauto.
    + by rewrite list_lookup_alter_ne.
  - rewrite lookup_insert_eq. simpl. rewrite lookup_insert_ne by done.
    destruct (events s !! event') as [a'|] eqn:E'; [|done].
    apply Hwf in E'.
    rewrite list_lookup_alter_ne by lia. by rewrite lookup_app_l.
Qed.

Lemma wf_initial (w : W) : wf (initial w).
Proof.
  split.
  - apply map_Forall_empty.
  - intros e1 e2 a H. simpl in H. by rewrite lookup_empty in H.
Qed.

Lemma wf_alloc event l s :
  wf s ->
  wf (set_events (<[event := length (arrays s)]> (events s))
        (set_arrays (arrays s ++ [l]) s)).
Proof.
  intros [Hb Hinj]. split; simpl.
  - rewrite length_app. simpl. apply map_Forall_insert_2; [lia|].
    intros e a Ha. apply Hb in Ha. simpl in *. lia.
  - intros e1 e2 a H1 H2.
    rewrite lookup_insert in H1. rewrite lookup_insert in H2.
    destruct (decide (event = e1)) as [E1|N1], (decide (event = e2)) as [E2|N2];
      simplify_eq; try done.
    + apply Hb in H2. simpl in H2. lia.
    + apply Hb in H1. simpl in H1. lia.
    + eauto.
Qed.

Lemma wf_delete event s : wf s -> wf (set_events (delete event (events s)) s).
Proof.
  intros [Hb Hinj]. split; simpl.
  - by apply map_Forall_delete.
  - intros e1 e2 a H1 H2.
    apply lookup_delete_Some in H1 as [_ H1].
    apply lookup_delete_Some in H2 as [_ H2]. eauto.
Qed.

Lemma wf_push a cb s :
  wf s -> wf (set_arrays (alter (λ l, l ++ [cb]) a (arrays s)) s).
Proof.
  intros [Hb Hinj]. split; simpl; [|done].
  by rewrite length_alter.
Qed.

Lemma wf_off event cb s : wf s -> wf (after_off event cb s).
Proof.
  intros H. rewrite after_off_unfold.
  destruct (events s !! event) as [a|]; [|done].
  cbv zeta. destruct (Nat.eqb _ 0).
  - apply wf_delete, wf_alloc, H.
  - apply wf_alloc, H.
Qed.

Lemma wf_on event cb s : wf s -> wf (after_on event cb s).
Proof.
  intros H.
  destruct (decide (events_get s event = Inherited)) as [Hi|Hget];
    [by rewrite after_on_thrown|].
  rewrite after_on_unfold by done. simpl.
  destruct (events s !! event) as [a|] eqn:E.
  - rewrite E. apply wf_push, H.
  - simpl. rewrite lookup_insert_eq.
    apply (wf_push _ _ (set_events _ (set_arrays _ s))), wf_alloc, H.
Qed.

Lemma wf_set_closures n s : wf s -> wf (set_closures n s).
Proof. done. Qed.

Lemma wf_set_world w s : wf s -> wf (set_world w s).
Proof. done. Qed.

Lemma wf_once event f s : wf s -> wf (after_once event f s).
Proof.
  intros H.
  destruct (decide (events_get s event = Inherited)) as [Hi|Hget];
    [by rewrite after_once_thrown|].
  rewrite after_once_unfold by done. apply wf_on, wf_set_closures, H.
Qed.

Lemma wf_clear s : wf s -> wf (clear s).
Proof.
  intros [Hb _]. split; simpl.
  - apply map_Forall_empty.
  - intros e1 e2 a H. simpl in H. by rewrite lookup_empty in H.
Qed.

Lemma extends_alloc m l s :
  extends s (set_events m (set_arrays (arrays s ++ [l]) s)).
Proof.
  intros a l0 H. exists []. simpl. rewrite app_nil_r.
  by apply lookup_app_l_Some.
Qed.

Lemma extends_set_events m s : extends s (set_events m s).
Proof. exact (extends_refl s). Qed.

Lemma extends_set_world w s : extends s (set_world w s).
Proof. exact (extends_refl s). Qed.

Lemma extends_push a cb s :
  extends s (set_arrays (alter (λ l, l ++ [cb]) a (arrays s)) s).
Proof.
  intros a' l H. simpl. rewrite list_lookup_alter.
  destruct (decide (a = a')) as [->|].
  - rewrite H. by exists [cb].
  - exists []. by rewrite app_nil_r.
Qed.

Lemma off_extends event cb s : extends s (after_off event cb s).
Proof.
  rewrite after_off_unfold.
  destruct (events s !! event) as [a|]; [|apply extends_refl].
  cbv zeta. destruct (Nat.eqb _ 0).
  - eapply extends_trans; [apply extends_alloc | apply extends_set_events].
  - apply extends_alloc.
Qed.

Lemma on_extends event cb s : extends s (after_on event cb s).
Proof.
  destruct (decide (events_get s event = Inherited)) as [Hi|Hget];
    [rewrite after_on_thrown by done; apply extends_refl|].
  rewrite after_on_unfold by done. simpl.
  destruct (events s !! event) as [a|] eqn:E.
  - rewrite E. apply extends_push.
  - simpl. rewrite lookup_insert_eq.
    eapply extends_trans; [apply extends_alloc|].
    apply (extends_push _ _ (set_events _ (set_arrays _ s))).
Qed.

Lemma once_extends event f s : extends s (after_once event f s).
Proof.
  destruct (decide (events_get s event = Inherited)) as [Hi|Hget];
    [rewrite after_once_thrown by done; apply extends_refl|].
  rewrite after_once_unfold by done. apply (on_extends _ _ (set_closures _ s)).
Qed.

Lemma clear_extends s : extends s (clear s).
Proof. exact (extends_refl s). Qed.

Create HintDb bus discriminated.
#[local] Hint Resolve extends_refl extends_set_events extends_set_world
  extends_alloc extends_push on_extends off_extends once_extends clear_extends : bus.
#[local] Hint Resolve wf_initial wf_on wf_off wf_once wf_clear wf_set_world
  wf_set_closures : bus.
#[local] Hint Extern 2 (extends _ _) => eapply extends_trans; [eassumption|] : bus.
#[local] Hint Extern 2 (extends _ _) => eapply extends_trans; [|eassumption] : bus.

(** The three calls of a body that can throw: the body goes on in the bus
    after the call, or ends there with the exception. *)
Lemma run_CallOn call' event f k s :
  run call' (CallOn event f k) s =
  if decide (events_get s event = Inherited) then Some (Threw, s, [])
  else run call' k (after_on event (User f) s).
Proof.
  cbn [run]. destruct (decide (events_get s event = Inherited)) as [Hi|Hget].
  - by rewrite on_throws.
  - by rewrite on_returns.
Qed.

Lemma run_CallOff call' event f k s :
  run call' (CallOff event f k) s =
  if decide (events_get s event = Inherited) then Some (Threw, s, [])
  else run call' k (after_off event (User f) s).
Proof.
  cbn [run]. destruct (decide (events_get s event = Inherited)) as [Hi|Hget].
  - by rewrite off_throws.
  - by rewrite off_returns.
Qed.

Lemma run_CallOnce call' event f k s :
  run call' (CallOnce event f k) s =
  if decide (events_get s event = Inherited) then Some (Threw, s, [])
  else run call' k (after_once event f s).
Proof.
  cbn [run]. destruct (decide (events_get s event = Inherited)) as [Hi|Hget].
  - by rewrite once_throws.
  - by rewrite once_returns.
Qed.

(** [emit], case by case. *)
Lemma emit_inherited call' event d s :
  events_get s event = Inherited -> emit call' event d s = Some (Threw, s, []).
Proof. intros Hget. unfold emit. by rewrite Hget. Qed.

Lemma emit_returned call' event d s r s' tr :
  events_get s event ≠ Inherited ->
  emit call' event d s = Some (r, s', tr) -> r = Returned.
Proof.
  intros Hget. unfold emit. destruct (events_get s event) as [|a|]; [| |done].
  - intros H. by inversion H.
  - destruct (forEach _ _ _ _ _ _ _) as [[s1 tr1]|]; [|done].
    intros H. by inversion H.
Qed.

Section InterpFacts.
Variable call' : callback -> Data -> state -> option (outcome * state * entry).
Hypothesis call'_sound : forall cb d s r s' t,
  call' cb d s = Some (r, s', t) ->
  extends s s' /\ exists inner, t = Invoked cb d inner r.

Lemma forEach_extends a event d n : forall k s s' tr,
  forEach call' a k n event d s = Some (s', tr) -> extends s s'.
Proof.
  induction n as [|n IH]; intros k s s' tr Hrun; simpl in Hrun.
  - inversion Hrun; subst. apply extends_refl.
  - destruct (arrays s !! a ≫= (λ l, l !! k)) as [cb|]; [|by eapply IH].
    destruct (call' cb d s) as [[[r s1] t]|] eqn:Hcall; [|done].
    destruct (call'_sound _ _ _ _ _ _ Hcall) as [Hext _].
    destruct (forEach call' a (S k) n event d s1) as [[s2 ts]|] eqn:Hrest; [|done].
    apply IH in Hrest. inversion Hrun; subst. by eapply extends_trans.
Qed.

Lemma emit_extends event d s r s' tr :
  emit call' event d s = Some (r, s', tr) -> extends s s'.
Proof.
  unfold emit. destruct (events_get s event) as [|a|].
  - intros H. inversion H; subst. apply extends_refl.
  - destruct (forEach _ _ _ _ _ _ _) as [[s1 tr1]|] eqn:Hf; [|done].
    intros H. inversion H; subst. by eapply forEach_extends.
  - intros H. inversion H; subst. apply extends_refl.
Qed.

Lemma run_extends p : forall s r s' tr,
  run call' p s = Some (r, s', tr) -> extends s s'.
Proof.
  induction p as [| |event f k IH|event f k IH|event f k IH|event d k IH|k IH|k IH|w k IH];
    intros s r s' tr Hrun.
  - inversion Hrun; subst. auto with bus.
  - inversion Hrun; subst. auto with bus.
  - rewrite run_CallOn in Hrun. destruct (decide _).
    + inversion Hrun; subst. auto with bus.
    + apply IH in Hrun. eauto with bus.
  - rewrite run_CallOff in Hrun. destruct (decide _).
    + inversion Hrun; subst. auto with bus.
    + apply IH in Hrun. eauto with bus.
  - rewrite run_CallOnce in Hrun. destruct (decide _).
    + inversion Hrun; subst. auto with bus.
    + apply IH in Hrun. eauto with bus.
  - cbn [run] in Hrun.
    destruct (emit call' event d s) as [[[r1 s1] t1]|] eqn:He; [|done].
    apply emit_extends in He. destruct r1.
    + destruct (run call' k s1) as [[[r2 s2] t2]|] eqn:Hk; [|done].
      inversion Hrun; subst. apply IH in Hk. eauto with bus.
    + by inversion Hrun; subst.
  - cbn [run] in Hrun. apply IH in Hrun. eauto with bus.
  - cbn [run] in Hrun. by apply IH in Hrun.
  - cbn [run] in Hrun. apply IH in Hrun. eauto with bus.
Qed.

End InterpFacts.

(** The two cases of [call], as equations. *)
Lemma call_User fuel f d s :
  call (S fuel) (User f) d s =
  match run (call fuel) (code f d) s with
  | None => None
  | Some (r, s1, t) => Some (r, s1, Invoked (User f) d t r)
  end.
Proof. reflexivity. Qed.

Lemma call_OnceCallback fuel n event f d s :
  call (S fuel) (OnceCallback n event f) d s =
  match call fuel (User f) d s with
  | None => None
  | Some (Threw, s1, t) =>
      Some (Threw, s1, Invoked (OnceCallback n event f) d [t] Threw)
  | Some (Returned, s1, t) =>
      if decide (events_get s1 event = Inherited)
      then Some (Threw, s1, Invoked (OnceCallback n event f) d [t] Threw)
      else Some (Returned, after_off event (OnceCallback n event f) s1,
                 Invoked (OnceCallback n event f) d [t] Returned)
  end.
Proof.
  cbn [call]. destruct (call fuel (User f) d s) as [[[[] s1] t]|]; [|done|done].
  destruct (decide (events_get s1 event = Inherited)) as [Hi|Hget].
  - by rewrite off_throws.
  - by rewrite off_returns.
Qed.

Lemma call_sound fuel : forall cb d s r s' t,
  call fuel cb d s = Some (r, s', t) ->
  extends s s' /\ exists inner, t = Invoked cb d inner r.
Proof.
  induction fuel as [|fuel IH]; intros cb d s r s' t Hcall; [done|].
  destruct cb as [f|n event f].
  - rewrite call_User in Hcall.
    destruct (run (call fuel) (code f d) s) as [[[r1 s1] t1]|] eqn:Hrun; [|done].
    inversion Hcall; subst. split; [by eapply run_extends | by eexists].
  - rewrite call_OnceCallback in Hcall.
    destruct (call fuel (User f) d s) as [[[r1 s1] t1]|] eqn:Hin; [|done].
    apply IH in Hin as [Hext _].
    destruct r1; [destruct (decide _)|]; inversion Hcall; subst.
    + split; [done | by eexists].
    + split; [|by eexists]. eapply extends_trans; [done | apply off_extends].
    + split; [done | by eexists].
Qed.

(** [forEach] on the live array calls the elements the array had when
    [emit] started: what the callbacks push comes after the length
    [forEach] has read, and [off] never writes to an array. *)
Lemma forEach_call_in_turn fuel a event d n : forall k s l,
  arrays s !! a = Some l -> k + n <= length l ->
  forEach (call fuel) a k n event d s =
  call_in_turn fuel event d (take n (drop k l)) s.
Proof.
  induction n as [|n IH]; intros k s l Ha Hk; [done|].
  destruct (lookup_lt_is_Some_2 l k) as [cb Hcb]; [lia|].
  rewrite (drop_S _ _ _ Hcb). cbn [forEach take call_in_turn].
  rewrite Ha. simpl. rewrite Hcb.
  destruct (call fuel cb d s) as [[[r s1] t]|] eqn:Hcall; [|done].
  destruct (call_sound _ _ _ _ _ _ _ Hcall) as [Hext _].
  destruct (Hext _ _ Ha) as [l1 Ha1].
  rewrite (IH _ _ _ Ha1) by (rewrite length_app; lia).
  rewrite drop_app_le by lia.
  by rewrite take_app_le by (rewrite length_drop; lia).
Qed.

(** [emit] is [call_in_turn] on the subscribers it finds when it starts,
    unless [this.events[event]] is an inherited property. *)
Lemma publish_call_in_turn fuel event d s :
  events_get s event ≠ Inherited ->
  publish fuel event d s =
  match call_in_turn fuel event d (subscribers s event) s with
  | None => None
  | Some (s', tr) => Some (Returned, s', tr)
  end.
Proof.
  intros Hget. unfold publish, emit, subscribers, events_get in *.
  destruct (events s !! event) as [a|].
  - destruct (arrays s !! a) as [l|] eqn:Ha; simpl; [|done].
    rewrite (forEach_call_in_turn _ _ _ _ _ _ _ _ Ha) by lia.
    by rewrite drop_0, firstn_all.
  - by destruct (inherited event).
Qed.

Lemma call_in_turn_sound fuel event d cbs : forall s s' tr,
  call_in_turn fuel event d cbs s = Some (s', tr) ->
  extends s s' /\ top_calls tr = map (λ cb, (cb, d)) cbs.
Proof.
  induction cbs as [|cb cbs IH]; intros s s' tr H; simpl in H.
  - inversion H; subst. split; [apply extends_refl | done].
  - destruct (call fuel cb d s) as [[[r s1] t]|] eqn:Hcall; [|done].
    destruct (call_sound _ _ _ _ _ _ _ Hcall) as [Hext [inner ->]].
    destruct (call_in_turn fuel event d cbs s1) as [[s2 ts]|] eqn:Hrest; [|done].
    apply IH in Hrest as [Hext2 Htop].
    inversion H; subst. split; [by eapply extends_trans|].
    destruct r; simpl; by rewrite Htop.
Qed.

(** The calls [emit] makes itself: one per subscriber, in order, each with
    the published value. *)
Lemma publish_top_calls fuel event d s r s' tr :
  publish fuel event d s = Some (r, s', tr) ->
  top_calls tr = map (λ cb, (cb, d)) (subscribers s event).
Proof.
  destruct (decide (events_get s event = Inherited)) as [Hi|Hget].
  - unfold publish. rewrite emit_inherited by done. intros H.
    assert (tr = []) as -> by (by inversion H).
    revert Hi. unfold events_get, subscribers.
    by destruct (events s !! event).
  - rewrite publish_call_in_turn by done.
    destruct (call_in_turn _ _ _ _ _) as [[s1 tr1]|] eqn:Hc; [|done].
    intros H. inversion H; subst. by apply call_in_turn_sound in Hc as [_ ?].
Qed.

Lemma publish_returned fuel event d s r s' tr :
  events_get s event ≠ Inherited ->
  publish fuel event d s = Some (r, s', tr) -> r = Returned.
Proof. apply emit_returned. Qed.

(** *** What every step of the bus preserves *)

(** What holds of the bus before a call of [on], [off], [once] or [clear]
    or an assignment of the application, and still holds after it, holds
    after everything the callbacks do during an [emit]. *)
Section Preserved.
Variable P : state -> Prop.
Hypothesis P_on : forall event f s, P s -> P (after_on event (User f) s).
Hypothesis P_off : forall event cb s, P s -> P (after_off event cb s).
Hypothesis P_once : forall event f s, P s -> P (after_once event f s).
Hypothesis P_clear : forall s, P s -> P (clear s).
Hypothesis P_world : forall w s, P s -> P (set_world w s).

Lemma forEach_preserved call' a event d n :
  (forall cb d' s r s' t, call' cb d' s = Some (r, s', t) -> P s -> P s') ->
  forall k s s' tr,
  forEach call' a k n event d s = Some (s', tr) -> P s -> P s'.
Proof.
  intros Hcall. induction n as [|n IH]; intros k s s' tr Hrun HP; simpl in Hrun.
  - by inversion Hrun; subst.
  - destruct (arrays s !! a ≫= (λ l, l !! k)) as [cb|]; [|by eapply IH].
    destruct (call' cb d s) as [[[r s1] t]|] eqn:Hc; [|done].
    destruct (forEach call' a (S k) n event d s1) as [[s2 ts]|] eqn:Hrest; [|done].
    inversion Hrun; subst. eapply IH; [exact Hrest|]. by eapply Hcall.
Qed.

Lemma emit_preserved call' event d s r s' tr :
  (forall cb d' s0 r0 s1 t, call' cb d' s0 = Some (r0, s1, t) -> P s0 -> P s1) ->
  emit call' event d s = Some (r, s', tr) -> P s -> P s'.
Proof.
  intros Hcall. unfold emit. destruct (events_get s event) as [|a|].
  - intros H. by inversion H; subst.
  - destruct (forEach _ _ _ _ _ _ _) as [[s1 tr1]|] eqn:Hf; [|done].
    intros H. inversion H; subst. by eapply forEach_preserved.
  - intros H. by inversion H; subst.
Qed.

Lemma run_preserved call' p :
  (forall cb d' s0 r s1 t, call' cb d' s0 = Some (r, s1, t) -> P s0 -> P s1) ->
  forall s r s' tr, run call' p s = Some (r, s', tr) -> P s -> P s'.
Proof.
  intros Hcall.
  induction p as [| |event f k IH|event f k IH|event f k IH|event d k IH|k IH|k IH|w k IH];
    intros s r s' tr Hrun HP.
  - by inversion Hrun; subst.
  - by inversion Hrun; subst.
  - rewrite run_CallOn in Hrun. destruct (decide _).
    + by inversion Hrun; subst.
    + eapply IH; [exact Hrun|]. by apply P_on.
  - rewrite run_CallOff in Hrun. destruct (decide _).
    + by inversion Hrun; subst.
    + eapply IH; [exact Hrun|]. by apply P_off.
  - rewrite run_CallOnce in Hrun. destruct (decide _).
    + by inversion Hrun; subst.
    + eapply IH; [exact Hrun|]. by apply P_once.
  - cbn [run] in Hrun.
    destruct (emit call' event d s) as [[[r1 s1] t1]|] eqn:He; [|done].
    apply emit_preserved in He; [|done|done]. destruct r1.
    + destruct (run call' k s1) as [[[r2 s2] t2]|] eqn:Hk; [|done].
      inversion Hrun; subst. by eapply IH.
    + by inversion Hrun; subst.
  - cbn [run] in Hrun. eapply IH; [exact Hrun|]. by apply P_clear.
  - cbn [run] in Hrun. by eapply IH.
  - cbn [run] in Hrun. eapply IH; [exact Hrun|]. by apply P_world.
Qed.

Lemma call_preserved fuel : forall cb d s r s' t,
  call fuel cb d s = Some (r, s', t) -> P s -> P s'.
Proof.
  induction fuel as [|fuel IH]; intros cb d s r s' t Hcall HP; [done|].
  destruct cb as [f|n event f].
  - rewrite call_User in Hcall.
    destruct (run (call fuel) (code f d) s) as [[[r1 s1] t1]|] eqn:Hrun; [|done].
    inversion Hcall; subst. by eapply (run_preserved _ _ IH).
  - rewrite call_OnceCallback in Hcall.
    destruct (call fuel (User f) d s) as [[[r1 s1] t1]|] eqn:Hin; [|done].
    apply IH in Hin; [|done].
    destruct r1; [destruct (decide _)|]; inversion Hcall; subst;
      [done | by apply P_off | done].
Qed.

Lemma publish_preserved fuel event d s r s' tr :
  publish fuel event d s = Some (r, s', tr) -> P s -> P s'.
Proof. apply emit_preserved, call_preserved. Qed.

End Preserved.

(** Every state the bus reaches is well formed. *)
Lemma call_wf fuel cb d s r s' t :
  call fuel cb d s = Some (r, s', t) -> wf s -> wf s'.
Proof. apply (call_preserved wf); auto with bus. Qed.

Lemma publish_wf fuel event d s r s' tr :
  publish fuel event d s = Some (r, s', tr) -> wf s -> wf s'.
Proof. apply (publish_preserved wf); auto with bus. Qed.

(** *** Completion *)

Lemma run_emit_free call' p : forall s, emit_free p -> is_Some (run call' p s).
Proof.
  induction p as [| |event f k IH|event f k IH|event f k IH|event d k IH|k IH|k IH|w k IH];
    intros s Hp; simpl in Hp.
  - by eexists.
  - by eexists.
  - rewrite run_CallOn. destruct (decide _); [by eexists | by apply IH].
  - rewrite run_CallOff. destruct (decide _); [by eexists | by apply IH].
  - rewrite run_CallOnce. destruct (decide _); [by eexists | by apply IH].
  - done.
  - cbn [run]. by apply IH.
  - cbn [run]. by apply IH.
  - cbn [run]. by apply IH.
Qed.

Lemma call_emit_free fuel cb d s :
  (forall f, emit_free (code f d)) -> is_Some (call (2 + fuel) cb d s).
Proof.
  intros Hfree.
  assert (Huser : forall n f s0, is_Some (call (S n) (User f) d s0)).
  { intros n f s0. rewrite call_User.
    destruct (run_emit_free (call n) (code f d) s0 (Hfree f)) as [[[r s1] t] ->].
    eauto. }
  destruct cb as [f|n event f]; [apply Huser|].
  change (2 + fuel) with (S (S fuel)). rewrite call_OnceCallback.
  destruct (Huser fuel f s) as [[[[] s1] t] ->]; [destruct (decide _)|]; eauto.
Qed.

(** A deeper stack changes nothing in a run that fits a shallower one. *)
Section Mono.
Variables call1 call2 : callback -> Data -> state -> option (outcome * state * entry).
Hypothesis call_le : forall cb d s x, call1 cb d s = Some x -> call2 cb d s = Some x.

Lemma forEach_mono a event d n : forall k s x,
  forEach call1 a k n event d s = Some x -> forEach call2 a k n event d s = Some x.
Proof.
  induction n as [|n IH]; intros k s x H; simpl in *; [done|].
  destruct (arrays s !! a ≫= (λ l, l !! k)) as [cb|]; [|by apply IH].
  destruct (call1 cb d s) as [[[r s1] t]|] eqn:Hc; [|done].
  rewrite (call_le _ _ _ _ Hc).
  destruct (forEach call1 a (S k) n event d s1) as [[s2 ts]|] eqn:Hf; [|done].
  by rewrite (IH _ _ _ Hf).
Qed.

Lemma emit_mono event d s x :
  emit call1 event d s = Some x -> emit call2 event d s = Some x.
Proof.
  unfold emit. destruct (events_get s event) as [|a|]; [done| |done].
  destruct (forEach call1 _ _ _ _ _ _) as [y|] eqn:Hf; [|done].
  by rewrite (forEach_mono _ _ _ _ _ _ _ Hf).
Qed.

Lemma run_mono p : forall s x,
  run call1 p s = Some x -> run call2 p s = Some x.
Proof.
  induction p as [| |event f k IH|event f k IH|event f k IH|event d k IH|k IH|k IH|w k IH];
    intros s x H; cbn [run] in *; try done.
  - destruct (on event (User f) s) as [[s1 h]|]; [by apply IH | done].
  - destruct (off event (User f) s) as [s1|]; [by apply IH | done].
  - destruct (once event f s) as [s1|]; [by apply IH | done].
  - destruct (emit call1 event d s) as [[[r1 s1] t1]|] eqn:He; [|done].
    rewrite (emit_mono _ _ _ _ He). destruct r1; [|done].
    destruct (run call1 k s1) as [[[r s2] t2]|] eqn:Hk; [|done].
    by rewrite (IH _ _ Hk).
  - by apply IH.
  - by apply IH.
  - by apply IH.
Qed.

End Mono.

Lemma call_S fuel : forall cb d s x,
  call fuel cb d s = Some x -> call (S fuel) cb d s = Some x.
Proof.
  induction fuel as [|fuel IH]; intros cb d s x H; [done|].
  destruct cb as [f|n event f].
  - rewrite call_User in *.
    destruct (run (call fuel) (code f d) s) as [y|] eqn:Hr; [|done].
    by rewrite (run_mono _ _ IH _ _ _ Hr).
  - rewrite call_OnceCallback in *.
    destruct (call fuel (User f) d s) as [y|] eqn:Hr; [|done].
    by rewrite (IH _ _ _ _ Hr).
Qed.

Lemma call_mono fuel fuel' cb d s x :
  fuel <= fuel' -> call fuel cb d s = Some x -> call fuel' cb d s = Some x.
Proof.
  induction 1 as [|fuel' _ IH]; [done|]. intros H. by apply call_S, IH.
Qed.

Lemma publish_mono fuel fuel' event d s x :
  fuel <= fuel' -> publish fuel event d s = Some x -> publish fuel' event d s = Some x.
Proof.
  intros Hle. apply emit_mono. intros cb d' s0 y. by apply call_mono.
Qed.

Lemma call_in_turn_mono fuel fuel' event d cbs : forall s x,
  fuel <= fuel' ->
  call_in_turn fuel event d cbs s = Some x ->
  call_in_turn fuel' event d cbs s = Some x.
Proof.
  induction cbs as [|cb cbs IH]; intros s x Hle H; simpl in *; [done|].
  destruct (call fuel cb d s) as [[[r s1] t]|] eqn:Hc; [|done].
  rewrite (call_mono _ _ _ _ _ _ Hle Hc).
  destruct (call_in_turn fuel event d cbs s1) as [y|] eqn:Hrest; [|done].
  by rewrite (IH _ _ Hle Hrest).
Qed.

(** When the call of each callback of the list completes, in whatever state
    it starts, calling them in turn completes. *)
Lemma call_in_turn_total event d cbs :
  (forall cb s0, cb ∈ cbs -> exists fuel, is_Some (call fuel cb d s0)) ->
  forall s, exists fuel, is_Some (call_in_turn fuel event d cbs s).
Proof.
  induction cbs as [|cb cbs IH]; intros Hcall s; [exists 0; by eexists|].
  destruct (Hcall cb s) as [fuel1 [[[r s1] t] Hc]]; [by left|].
  destruct (IH (λ c s0 Hin, Hcall c s0 (list_elem_of_further _ _ _ Hin)) s1)
    as [fuel2 [[s2 ts] Hrest]].
  exists (fuel1 `max` fuel2). simpl.
  rewrite (call_mono fuel1 _ _ _ _ _ (Nat.le_max_l _ _) Hc).
  rewrite (call_in_turn_mono fuel2 _ _ _ _ _ _ (Nat.le_max_r _ _) Hrest).
  by eexists.
Qed.


(** When every call with [d] completes within [fuel], so does calling the
    callbacks of a list in turn, and so does [emit]. *)
Lemma call_in_turn_within fuel event d cbs :
  (forall cb s0, is_Some (call fuel cb d s0)) ->
  forall s, is_Some (call_in_turn fuel event d cbs s).
Proof.
  intros Hcall. induction cbs as [|cb cbs IH]; intros s; [by eexists|].
  simpl. destruct (Hcall cb s) as [[[r s1] t] ->].
  destruct (IH s1) as [[s2 ts] ->]. by eexists.
Qed.

Lemma call_in_turn_emit_free fuel event d cbs s :
  2 <= fuel -> (forall f, emit_free (code f d)) ->
  is_Some (call_in_turn fuel event d cbs s).
Proof.
  intros Hle Hfree. apply call_in_turn_within. intros cb s0.
  replace fuel with (2 + (fuel - 2)) by lia. by apply call_emit_free.
Qed.

Lemma publish_within fuel event d s :
  (forall cb s0, is_Some (call fuel cb d s0)) ->
  is_Some (publish fuel event d s).
Proof.
  intros Hcall.
  destruct (decide (events_get s event = Inherited)) as [Hi|Hget].
  - unfold publish. rewrite emit_inherited by done. by eexists.
  - rewrite publish_call_in_turn by done.
    destruct (call_in_turn_within fuel event d (subscribers s event) Hcall s)
      as [[s' tr] ->]. by eexists.
Qed.
(** *** The states the application can reach *)

Lemma closures_on event cb s : closures (after_on event cb s) = closures s.
Proof.
  destruct (decide (events_get s event = Inherited)) as [Hi|Hget];
    [by rewrite after_on_thrown|].
  rewrite after_on_unfold by done. simpl.
  destruct (events s !! event) as [a|] eqn:E.
  - by rewrite E.
  - simpl. by rewrite lookup_insert_eq.
Qed.

Lemma closures_off event cb s : closures (after_off event cb s) = closures s.
Proof.
  rewrite after_off_unfold. destruct (events s !! event); [|done].
  cbv zeta. by destruct (Nat.eqb _ 0).
Qed.

Lemma events_on event cb s e :
  is_Some (events (after_on event cb s) !! e) ->
  (e = event /\ events_get s event ≠ Inherited) \/ is_Some (events s !! e).
Proof.
  destruct (decide (events_get s event = Inherited)) as [Hi|Hget];
    [rewrite after_on_thrown by done; by right|].
  rewrite after_on_unfold by done. simpl.
  destruct (events s !! event) as [a|] eqn:E.
  - rewrite E. simpl. by right.
  - simpl. rewrite lookup_insert_eq. simpl.
    destruct (decide (e = event)) as [|Hne]; [by left|].
    rewrite lookup_insert_ne by done. by right.
Qed.

Lemma events_off event cb s e :
  is_Some (events (after_off event cb s) !! e) -> is_Some (events s !! e).
Proof.
  rewrite after_off_unfold. destruct (events s !! event) as [a|] eqn:E; [|done].
  cbv zeta. destruct (decide (e = event)) as [->|Hne]; [by rewrite E|].
  destruct (Nat.eqb _ 0); simpl.
  - by rewrite lookup_delete_ne, lookup_insert_ne by done.
  - by rewrite lookup_insert_ne by done.
Qed.

Lemma tidy_on event cb s : wf s -> tidy s -> tidy (after_on event cb s).
Proof.
  intros Hwf Ht e He. destruct (decide (e = event)) as [->|Hne].
  - destruct (decide (events_get s event = Inherited)) as [Hi|Hget].
    + rewrite after_on_thrown in * by done. by apply Ht.
    + rewrite on_subscribers by done. by destruct (subscribers s event).
  - rewrite on_subscribers_ne by done. apply Ht.
    by destruct (events_on _ _ _ _ He) as [[? _]|].
Qed.

Lemma tidy_off event cb s : wf s -> tidy s -> tidy (after_off event cb s).
Proof.
  intros Hwf Ht e He. destruct (decide (e = event)) as [->|Hne].
  - intros Hnil. revert He. rewrite off_subscribers in Hnil.
    rewrite after_off_unfold. destruct (events s !! event) as [a|] eqn:E.
    + cbv zeta. unfold subscribers in Hnil. rewrite E in Hnil.
      rewrite Hnil. simpl. rewrite lookup_delete_eq. by intros [? ?].
    + rewrite E. by intros [? ?].
  - rewrite off_subscribers_ne by done. apply Ht. by eapply events_off.
Qed.

Lemma tidy_once event f s : wf s -> tidy s -> tidy (after_once event f s).
Proof.
  intros Hwf Ht.
  destruct (decide (events_get s event = Inherited)) as [Hi|Hget];
    [by rewrite after_once_thrown|].
  rewrite after_once_unfold by done.
  by apply (tidy_on _ _ (set_closures _ s)).
Qed.

Lemma plain_on event cb s : plain s -> plain (after_on event cb s).
Proof.
  intros Hp e He. destruct (events (after_on event cb s) !! e) eqn:E; [|done].
  destruct (events_on event cb s e) as [[-> Hget]|[a Ha]]; [by eexists| |].
  - revert Hget. unfold events_get. rewrite (Hp _ He). by rewrite He.
  - by rewrite (Hp _ He) in Ha.
Qed.

Lemma plain_off event cb s : plain s -> plain (after_off event cb s).
Proof.
  intros Hp e He. destruct (events (after_off event cb s) !! e) eqn:E; [|done].
  destruct (events_off event cb s e) as [a Ha]; [by eexists|].
  by rewrite (Hp _ He) in Ha.
Qed.

Lemma plain_once event f s : plain s -> plain (after_once event f s).
Proof.
  intros Hp.
  destruct (decide (events_get s event = Inherited)) as [Hi|Hget];
    [by rewrite after_once_thrown|].
  rewrite after_once_unfold by done.
  by apply (plain_on _ _ (set_closures _ s)).
Qed.

Lemma plain_clear s : plain (clear s).
Proof. intros e _. apply lookup_empty. Qed.

Lemma tidy_clear s : tidy (clear s).
Proof. intros e [a Ha]. simpl in Ha. by rewrite lookup_empty in Ha. Qed.

(** What is known of every state the application can reach. *)
Definition sound s : Prop := wf s /\ tidy s /\ plain s.

Lemma sound_on event cb s : sound s -> sound (after_on event cb s).
Proof.
  intros (Hw & Ht & Hp).
  split; [by apply wf_on|]. split; [by apply tidy_on | by apply plain_on].
Qed.

Lemma sound_off event cb s : sound s -> sound (after_off event cb s).
Proof.
  intros (Hw & Ht & Hp).
  split; [by apply wf_off|]. split; [by apply tidy_off | by apply plain_off].
Qed.

Lemma sound_once event f s : sound s -> sound (after_once event f s).
Proof.
  intros (Hw & Ht & Hp).
  split; [by apply wf_once|]. split; [by apply tidy_once | by apply plain_once].
Qed.

Lemma sound_clear s : sound s -> sound (clear s).
Proof.
  intros (Hw & Ht & Hp).
  split; [by apply wf_clear|]. split; [apply tidy_clear | apply plain_clear].
Qed.

Lemma sound_initial (w : W) : sound (initial w).
Proof.
  split; [apply wf_initial|]. split.
  - intros e [a Ha]. simpl in Ha. by rewrite lookup_empty in Ha.
  - intros e _. apply lookup_empty.
Qed.

Lemma reachable_sound s : reachable s -> sound s.
Proof.
  induction 1 as [w|event f s _ IH|event f s _ IH|event f s _ IH
                  |s _ IH|w s _ IH|fuel event d s r s' tr _ IH Hrun].
  - apply sound_initial.
  - by apply sound_on.
  - by apply sound_off.
  - by apply sound_once.
  - by apply sound_clear.
  - done.
  - revert Hrun IH. apply (publish_preserved sound).
    + intros e f s0. apply sound_on.
    + intros e cb s0. apply sound_off.
    + intros e f s0. apply sound_once.
    + apply sound_clear.
    + done.
Qed.

(** In a state the application can reach, [this.events[event]] is an
    inherited property exactly for the names of [Object.prototype]. *)
Lemma events_get_inherited s event :
  plain s -> inherited event = true -> events_get s event = Inherited.
Proof.
  intros Hp He. unfold events_get. by rewrite (Hp _ He), He.
Qed.

Lemma getEvents_tidy s event :
  tidy s -> (event ∈ getEvents s <-> subscribers s event ≠ []).
Proof.
  intros Ht. unfold getEvents. rewrite elem_of_dom. split; [apply Ht|].
  unfold subscribers. destruct (events s !! event); [eauto | done].
Qed.

(** *** The properties of the specification *)

(** C1 on the code.  [emit] checks only that [this.events[event]] is truthy
    before it calls its [forEach].  Under a name of a property of
    [Object.prototype] a new bus finds that property: [emit] throws a
    [TypeError], outside the [try] of the callbacks, to its caller.  No
    callback is registered under such a name. *)
Theorem publish_prototype_name_throws fuel (d : Data) (w : W) :
  publish fuel "toString" d (initial w) = Some (Threw, initial w, []) /\
  Forall (λ event,
            publish fuel event d (initial w) = Some (Threw, initial w, []) /\
            subscribers (initial w) event = [])
    prototype_names.
Proof.
  assert (H : forall event, event ∈ prototype_names ->
            publish fuel event d (initial w) = Some (Threw, initial w, [])).
  { intros event Hin%inherited_prototype_names. apply emit_inherited.
    apply events_get_inherited; [apply sound_initial | done]. }
  split.
  - apply H. unfold prototype_names. do 5 right. by left.
  - apply Forall_forall. intros event Hin. split; [by apply H|].
    unfold subscribers. simpl. by rewrite lookup_empty.
Qed.

(** C5 on the code.  [off] checks only that [this.events[event]] is truthy
    before it calls its [filter].  Under a name of a property of
    [Object.prototype], where no callback was ever registered, [off] on a
    new bus throws a [TypeError]. *)
Theorem off_prototype_name_throws cb (w : W) :
  off "constructor" cb (initial w) = TypeError /\
  Forall (λ event,
            off event cb (initial w) = TypeError /\
            cb ∉ subscribers (initial w) event)
    prototype_names.
Proof.
  assert (H : forall event, event ∈ prototype_names ->
            off event cb (initial w) = TypeError).
  { intros event Hin%inherited_prototype_names. apply off_throws.
    apply events_get_inherited; [apply sound_initial | done]. }
  split.
  - apply H. by left.
  - apply Forall_forall. intros event Hin. split; [by apply H|].
    unfold subscribers. simpl. rewrite lookup_empty. apply not_elem_of_nil.
Qed.

(** C4.  [publish(e, d)] on an event that has subscribers (so that a
    callback is called at all) is the calls of the subscribers it finds when
    it starts, made in turn: what the callbacks do to the subscriber list
    while it runs (unsubscribe themselves or others, subscribe, clear the
    bus) changes neither which callbacks are called nor their order, and
    each is called as often as it was registered at the start.  No
    exception leaves [publish].  It completes whenever the calls of these
    subscribers complete, whether or not they publish themselves, and
    within stack depth 2 when no function of the application publishes; a
    deeper stack does not change the result. *)
Theorem publish_unaffected_by_unsubscribe event d s :
  subscribers s event ≠ [] ->
  (forall fuel,
     publish fuel event d s =
     match call_in_turn fuel event d (subscribers s event) s with
     | None => None
     | Some (s', tr) => Some (Returned, s', tr)
     end) /\
  (forall fuel r s' tr, publish fuel event d s = Some (r, s', tr) ->
     r = Returned /\
     top_calls tr = map (λ cb, (cb, d)) (subscribers s event) /\
     forall cb, length (filter (λ c, c.1 = cb) (top_calls tr)) =
                length (filter (λ c, c = cb) (subscribers s event))) /\
  ((forall cb s0, cb ∈ subscribers s event ->
      exists fuel, is_Some (call fuel cb d s0)) ->
   exists fuel s' tr, publish fuel event d s = Some (Returned, s', tr)) /\
  ((forall f, emit_free (code f d)) ->
   forall fuel, exists s' tr,
     publish (2 + fuel) event d s = Some (Returned, s', tr)) /\
  (forall fuel fuel' x, fuel <= fuel' ->
     publish fuel event d s = Some x -> publish fuel' event d s = Some x).
Proof.
  intros Hsub. pose proof (events_get_subscribed _ _ Hsub) as Hget.
  split; [|split; [|split; [|split]]].
  - intros fuel. by apply publish_call_in_turn.
  - intros fuel r s' tr H. split; [by eapply publish_returned|].
    rewrite (publish_top_calls _ _ _ _ _ _ _ H). split; [done|].
    intros cb. generalize (subscribers s event). intros l.
    induction l as [|c l IH]; [done|].
    simpl. rewrite !filter_cons. simpl.
    destruct (decide (c = cb)); simpl; by rewrite IH.
  - intros Hcall.
    destruct (call_in_turn_total event d _ Hcall s) as [fuel [[s' tr] H]].
    exists fuel, s', tr. by rewrite publish_call_in_turn, H.
  - intros Hfree fuel. rewrite publish_call_in_turn by done.
    destruct (call_in_turn_emit_free (2 + fuel) event d (subscribers s event) s)
      as [[s' tr] H]; [lia | done |].
    exists s', tr. by rewrite H.
  - intros fuel fuel' x. apply publish_mono.
Qed.

(** C3, as the code has it.  The empty event name is a name like any other:
    [on("", cb)] does not throw and registers [cb] under the empty name, after
    the callbacks already there, and leaves the other events as they were; a
    later [publish("", d)] calls it. *)
Theorem on_empty_name_registers cb s :
  wf s ->
  on "" cb s = Normal (after_on "" cb s, off "" cb) /\
  subscribers (after_on "" cb s) "" = subscribers s "" ++ [cb] /\
  (forall e, e ≠ "" -> subscribers (after_on "" cb s) e = subscribers s e) /\
  forall fuel d r s' tr,
    publish fuel "" d (after_on "" cb s) = Some (r, s', tr) ->
    r = Returned /\ (cb, d) ∈ top_calls tr.
Proof.
  intros Hwf.
  assert (Hget : forall s0, events_get s0 "" ≠ Inherited).
  { intros s0. by apply events_get_ordinary. }
  split; [by apply on_returns|]. split; [by apply on_subscribers|]. split.
  - intros e Hne. by apply on_subscribers_ne.
  - intros fuel d r s' tr H. split; [by eapply publish_returned|].
    rewrite (publish_top_calls _ _ _ _ _ _ _ H).
    apply list_elem_of_fmap. exists cb. split; [done|].
    rewrite on_subscribers by done. apply elem_of_app. right. by left.
Qed.

(** C10.  [off(e, cb)] removes every registration of [cb] under [e].
    In a state the application can reach, after [cb] was registered twice
    (both calls of [on] returned: under a name of [Object.prototype] [on]
    throws and registers nothing), one call of [off], and likewise one call
    of either closure returned by [on], returns and leaves no [cb] in the
    list and the other callbacks and events as they were; a later
    [publish(e, d)] is the calls of the other subscribers, and [cb] is not
    among them. *)
Theorem off_removes_every_registration event cb s s1 h1 s2 h2 :
  reachable s ->
  on event cb s = Normal (s1, h1) -> on event cb s1 = Normal (s2, h2) ->
  subscribers s2 event = subscribers s event ++ [cb; cb] /\
  (forall s0 s0', off event cb s0 = Normal s0' -> cb ∉ subscribers s0' event) /\
  (forall h, h = off event cb \/ h = h1 \/ h = h2 ->
     exists s3, h s2 = Normal s3 /\
       subscribers s3 event = filter (λ c, c ≠ cb) (subscribers s event) /\
       (forall e, e ≠ event -> subscribers s3 e = subscribers s e) /\
       (forall fuel d,
          publish fuel event d s3 =
          match call_in_turn fuel event d
                  (filter (λ c, c ≠ cb) (subscribers s event)) s3 with
          | None => None
          | Some (s', tr) => Some (Returned, s', tr)
          end) /\
       (forall fuel d r s' tr, publish fuel event d s3 = Some (r, s', tr) ->
          forall d', (cb, d') ∉ top_calls tr)).
Proof.
  intros (Hwf & _ & Hplain)%reachable_sound Hon1 Hon2.
  apply on_Normal in Hon1 as (-> & -> & Hget).
  apply on_Normal in Hon2 as (-> & -> & Hget1).
  assert (Hord : inherited event = false).
  { destruct (inherited event) eqn:He; [|done].
    by rewrite (events_get_inherited _ _ Hplain He) in Hget. }
  pose proof (wf_on event cb s Hwf) as Hwf1.
  pose proof (wf_on event cb _ Hwf1) as Hwf2.
  assert (H2 : subscribers (after_on event cb (after_on event cb s)) event
               = subscribers s event ++ [cb; cb]).
  { rewrite !on_subscribers by done. by rewrite <- app_assoc. }
  assert (Hoff : forall s0 s0', off event cb s0 = Normal s0' ->
                   cb ∉ subscribers s0' event).
  { intros s0 s0' [-> _]%off_Normal. rewrite off_subscribers.
    intros [Hne _]%list_elem_of_filter. done. }
  split; [done|]. split; [done|].
  intros h Hh.
  assert (h = off event cb) as -> by (by destruct Hh as [|[|]]).
  set (s2 := after_on event cb (after_on event cb s)) in *.
  assert (Hs3 : subscribers (after_off event cb s2) event
                = filter (λ c, c ≠ cb) (subscribers s event)).
  { rewrite off_subscribers, H2, filter_app.
    rewrite !filter_cons, filter_nil. simpl.
    destruct (decide (cb ≠ cb)); [done|]. by rewrite app_nil_r. }
  exists (after_off event cb s2). split; [|split; [|split; [|split]]].
  - apply off_returns. by apply events_get_ordinary.
  - done.
  - intros e Hne. rewrite off_subscribers_ne by done. unfold s2.
    by rewrite !on_subscribers_ne.
  - intros fuel d. rewrite publish_call_in_turn by (by apply events_get_ordinary).
    by rewrite Hs3.
  - intros fuel d r s' tr H d'. rewrite (publish_top_calls _ _ _ _ _ _ _ H).
    intros [c [Hc Hin]]%list_elem_of_fmap. inversion Hc; subst.
    revert Hin. apply (Hoff s2). apply off_returns. by apply events_get_ordinary.
Qed.

(** The wrapper of [once] is gone from the list of its event as soon as it
    has returned. *)
Lemma once_callback_removed_on_return fuel n event f d s s' t :
  call fuel (OnceCallback n event f) d s = Some (Returned, s', t) ->
  OnceCallback n event f ∉ subscribers s' event.
Proof.
  destruct fuel as [|fuel]; [done|]. rewrite call_OnceCallback.
  destruct (call fuel (User f) d s) as [[[[] s1] t1]|]; [|done|done].
  destruct (decide _); [done|].
  intros H. inversion H; subst. rewrite off_subscribers.
  intros [Hne _]%list_elem_of_filter. done.
Qed.

(** *** More of the bus: [getEvents], [clear], [once] *)

(** X1.  In every state the application can bring the bus into, whatever
    its callbacks do, [getEvents()] lists exactly the events that have a
    subscriber: [off] deletes the key of an event with its last subscriber,
    and no other step leaves an empty array behind. *)
Theorem getEvents_lists_subscribed_events s event :
  reachable s -> (event ∈ getEvents s <-> subscribers s event ≠ []).
Proof. intros (_ & Ht & _)%reachable_sound. by apply getEvents_tidy. Qed.

Lemma call_in_turn_app fuel event d cbs1 : forall cbs2 s,
  call_in_turn fuel event d (cbs1 ++ cbs2) s =
  match call_in_turn fuel event d cbs1 s with
  | None => None
  | Some (s1, tr1) =>
      match call_in_turn fuel event d cbs2 s1 with
      | None => None
      | Some (s2, tr2) => Some (s2, tr1 ++ tr2)
      end
  end.
Proof.
  induction cbs1 as [|cb cbs1 IH]; intros cbs2 s; simpl.
  - by destruct (call_in_turn fuel event d cbs2 s) as [[s2 tr2]|].
  - destruct (call fuel cb d s) as [[[r s1] t]|]; [|done].
    rewrite IH. destruct (call_in_turn fuel event d cbs1 s1) as [[s2 tr1]|]; [|done].
    destruct (call_in_turn fuel event d cbs2 s2) as [[s3 tr2]|]; [|done].
    by destruct r.
Qed.

(** X20.  Under an event name that [Object.prototype] does not have,
    [publish(e, d)] is the calls of the subscribers it finds when it
    starts, made in turn with the very value [d], one call per
    registration.  A callback that throws is followed by the
    [console.error] of [emit] and by the calls of the remaining callbacks,
    and no exception leaves [publish].  It completes whenever the calls of
    these subscribers complete, so within stack depth 2 when no function of
    the application publishes; a deeper stack does not change the result. *)
Theorem publish_calls_subscribers_in_turn event d s :
  inherited event = false ->
  (forall fuel,
     publish fuel event d s =
     match call_in_turn fuel event d (subscribers s event) s with
     | None => None
     | Some (s', tr) => Some (Returned, s', tr)
     end) /\
  (forall fuel r s' tr, publish fuel event d s = Some (r, s', tr) ->
     r = Returned /\
     top_calls tr = map (λ cb, (cb, d)) (subscribers s event)) /\
  (forall fuel before cb after s1 tr1 s2 t,
     subscribers s event = before ++ cb :: after ->
     call_in_turn fuel event d before s = Some (s1, tr1) ->
     call fuel cb d s1 = Some (Threw, s2, t) ->
     publish fuel event d s =
     match call_in_turn fuel event d after s2 with
     | None => None
     | Some (s', tr2) =>
         Some (Returned, s', tr1 ++ t :: ConsoleError event :: tr2)
     end) /\
  ((forall cb s0, cb ∈ subscribers s event ->
      exists fuel, is_Some (call fuel cb d s0)) ->
   exists fuel s' tr, publish fuel event d s = Some (Returned, s', tr)) /\
  ((forall f, emit_free (code f d)) ->
   forall fuel, exists s' tr,
     publish (2 + fuel) event d s = Some (Returned, s', tr)) /\
  (forall fuel fuel' x, fuel <= fuel' ->
     publish fuel event d s = Some x -> publish fuel' event d s = Some x).
Proof.
  intros Hord. pose proof (events_get_ordinary s _ Hord) as Hget.
  split; [|split; [|split; [|split; [|split]]]].
  - intros fuel. by apply publish_call_in_turn.
  - intros fuel r s' tr H. split; [by eapply publish_returned|].
    by eapply publish_top_calls.
  - intros fuel before cb after s1 tr1 s2 t Hsub Hbefore Hcb.
    rewrite publish_call_in_turn, Hsub, call_in_turn_app, Hbefore by done.
    simpl. rewrite Hcb.
    by destruct (call_in_turn fuel event d after s2) as [[s' tr2]|].
  - intros Hcall.
    destruct (call_in_turn_total event d _ Hcall s) as [fuel [[s' tr] H]].
    exists fuel, s', tr. by rewrite publish_call_in_turn, H.
  - intros Hfree fuel. rewrite publish_call_in_turn by done.
    destruct (call_in_turn_emit_free (2 + fuel) event d (subscribers s event) s)
      as [[s' tr] H]; [lia | done |].
    exists s', tr. by rewrite H.
  - intros fuel fuel' x. apply publish_mono.
Qed.

(** X21.  Under an event name that [Object.prototype] does not have,
    [off(e, cb)] returns, and a second call returns and changes no
    subscriber list; a call for a callback that is not registered under [e]
    changes no subscriber list; and in every case the lists of the other
    events and the other callbacks of [e], with their order, stay as they
    were. *)
Theorem off_ordinary_name_idempotent event cb s :
  wf s -> inherited event = false ->
  exists s1 s2,
    off event cb s = Normal s1 /\ off event cb s1 = Normal s2 /\
    (forall e, subscribers s2 e = subscribers s1 e) /\
    (cb ∉ subscribers s event -> forall e, subscribers s1 e = subscribers s e) /\
    (forall e, e ≠ event -> subscribers s1 e = subscribers s e) /\
    subscribers s1 event = filter (λ c, c ≠ cb) (subscribers s event).
Proof.
  intros Hwf Hord.
  assert (Hnotin : forall s0, wf s0 -> cb ∉ subscribers s0 event ->
            forall e, subscribers (after_off event cb s0) e = subscribers s0 e).
  { intros s0 Hwf0 Hn e. destruct (decide (e = event)) as [->|Hne].
    - rewrite off_subscribers. by apply filter_ne_id.
    - by apply off_subscribers_ne. }
  exists (after_off event cb s), (after_off event cb (after_off event cb s)).
  split; [by apply off_returns, events_get_ordinary|].
  split; [by apply off_returns, events_get_ordinary|].
  split; [|split; [|split]].
  - apply Hnotin; [by apply wf_off|].
    rewrite off_subscribers. intros [Hne _]%list_elem_of_filter. done.
  - by apply Hnotin.
  - intros e Hne. by apply off_subscribers_ne.
  - apply off_subscribers.
Qed.

(** X22.  Under the name of a property of [Object.prototype] the bus never
    holds a subscriber, in any state the application can bring it into:
    [on], [off] and [once] throw a [TypeError] there, [emit] throws it to
    its caller, the bus stays as it was, and [getEvents()] does not list the
    name. *)
Theorem prototype_names_always_throw event s :
  reachable s -> inherited event = true ->
  subscribers s event = [] /\
  (event ∉ getEvents s) /\
  (forall cb, on event cb s = TypeError) /\
  (forall cb, off event cb s = TypeError) /\
  (forall f, once event f s = TypeError) /\
  (forall fuel d, publish fuel event d s = Some (Threw, s, [])).
Proof.
  intros (_ & _ & Hp)%reachable_sound He.
  pose proof (events_get_inherited _ _ Hp He) as Hget.
  split; [|split; [|split; [|split; [|split]]]].
  - unfold subscribers. by rewrite (Hp _ He).
  - unfold getEvents. apply not_elem_of_dom. by apply Hp.
  - intros cb. by apply on_throws.
  - intros cb. by apply off_throws.
  - intros f. by apply once_throws.
  - intros fuel d. by apply emit_inherited.
Qed.

(** Every call logged by [emit] is a call [emit] made. *)
Lemma call_in_turn_entries fuel event d cbs : forall s s' tr t,
  call_in_turn fuel event d cbs s = Some (s', tr) -> t ∈ tr ->
  t = ConsoleError event \/
  exists cb s0 r s1, cb ∈ cbs /\ call fuel cb d s0 = Some (r, s1, t).
Proof.
  induction cbs as [|cb cbs IH]; intros s s' tr t H Hin; simpl in H.
  - inversion H; subst. by apply elem_of_nil in Hin.
  - destruct (call fuel cb d s) as [[[r s1] t0]|] eqn:Hc; [|done].
    destruct (call_in_turn fuel event d cbs s1) as [[s2 ts]|] eqn:Hrest; [|done].
    assert (Hhead : t = t0 -> exists cb0 s0 r0 s3,
              cb0 ∈ cb :: cbs /\ call fuel cb0 d s0 = Some (r0, s3, t)).
    { intros ->. exists cb, s, r, s1. split; [by left | done]. }
    assert (Htail : t ∈ ts -> t = ConsoleError event \/
              exists cb0 s0 r0 s3,
                cb0 ∈ cb :: cbs /\ call fuel cb0 d s0 = Some (r0, s3, t)).
    { intros Ht. destruct (IH _ _ _ _ Hrest Ht)
        as [|(cb0 & s0 & r0 & s3 & Hcb0 & Hcall)]; [by left|].
      right. exists cb0, s0, r0, s3. split; [by right | done]. }
    inversion H; subst. destruct r.
    + apply elem_of_cons in Hin as [->|Hin]; [right; by apply Hhead | by apply Htail].
    + apply elem_of_cons in Hin as [->|Hin]; [right; by apply Hhead|].
      apply elem_of_cons in Hin as [->|Hin]; [by left | by apply Htail].
Qed.

Lemma publish_entries fuel event d s r s' tr t :
  publish fuel event d s = Some (r, s', tr) -> t ∈ tr ->
  t = ConsoleError event \/
  exists cb s0 r0 s1, call fuel cb d s0 = Some (r0, s1, t).
Proof.
  destruct (decide (events_get s event = Inherited)) as [Hi|Hget].
  - unfold publish. rewrite emit_inherited by done. intros H Hin.
    assert (tr = []) as -> by (by inversion H). by apply elem_of_nil in Hin.
  - rewrite publish_call_in_turn by done.
    destruct (call_in_turn _ _ _ _ _) as [[s1 tr1]|] eqn:Hc; [|done].
    intros H Hin. assert (tr1 = tr) as -> by (by inversion H).
    destruct (call_in_turn_entries _ _ _ _ _ _ _ _ Hc Hin)
      as [|(cb & s0 & r0 & s2 & _ & Hcall)]; [by left | right; eauto].
Qed.

Lemma top_calls_entry cb d (tr : list entry) :
  (cb, d) ∈ top_calls tr -> exists inner r, Invoked cb d inner r ∈ tr.
Proof.
  unfold top_calls. intros [t [Hin Ht]]%list_elem_of_omap.
  destruct t as [cb' d' inner r|]; [|done]. inversion Ht; subst. eauto.
Qed.

Lemma entry_top_calls cb d inner r (tr : list entry) :
  Invoked cb d inner r ∈ tr -> (cb, d) ∈ top_calls tr.
Proof.
  intros Hin. unfold top_calls. apply list_elem_of_omap.
  by exists (Invoked cb d inner r).
Qed.

Lemma all_calls_entry c t (tr : list entry) :
  t ∈ tr -> c ∈ calls_of t -> c ∈ all_calls tr.
Proof.
  intros Hin Hc. unfold all_calls.
  induction tr as [|t0 tr IH]; [by apply elem_of_nil in Hin|].
  simpl. apply elem_of_app. apply elem_of_cons in Hin as [->|Hin]; auto.
Qed.

(** The call of a wrapper of [once] consists of one call of the wrapped
    function with the same argument. *)
Lemma call_wrapper_shape fuel n event f d s r s' t :
  call fuel (OnceCallback n event f) d s = Some (r, s', t) ->
  exists inner r1,
    t = Invoked (OnceCallback n event f) d [Invoked (User f) d inner r1] r.
Proof.
  destruct fuel as [|fuel]; [done|]. rewrite call_OnceCallback.
  destruct (call fuel (User f) d s) as [[[r1 s1] t1]|] eqn:Hin; [|done].
  destruct (call_sound _ _ _ _ _ _ _ Hin) as [_ [inner ->]].
  destruct r1; [destruct (decide _)|]; intros H; inversion H; subst; eauto.
Qed.

(** What a call of [on] or [once] adds to a subscriber list, and what it
    keeps. *)
Lemma on_subscribers_keeps event e cb c s :
  wf s -> c ∈ subscribers s event -> c ∈ subscribers (after_on e cb s) event.
Proof.
  intros Hwf Hin. destruct (decide (event = e)) as [->|Hne].
  - destruct (decide (events_get s e = Inherited)) as [Hi|Hget];
      [by rewrite after_on_thrown|].
    rewrite on_subscribers by done. apply elem_of_app. by left.
  - by rewrite on_subscribers_ne.
Qed.

Lemma on_subscribers_adds event e cb c s :
  wf s -> c ∈ subscribers (after_on e cb s) event ->
  c ∈ subscribers s event \/ (c = cb /\ event = e).
Proof.
  intros Hwf Hin. destruct (decide (event = e)) as [->|Hne].
  - destruct (decide (events_get s e = Inherited)) as [Hi|Hget];
      [rewrite after_on_thrown in Hin by done; by left|].
    rewrite on_subscribers in Hin by done.
    apply elem_of_app in Hin as [Hin|Hin]; [by left|].
    apply list_elem_of_singleton in Hin. by right.
  - rewrite on_subscribers_ne in Hin by done. by left.
Qed.

Lemma once_subscribers event f s :
  wf s -> events_get s event ≠ Inherited ->
  subscribers (after_once event f s) event =
    subscribers s event ++ [OnceCallback (closures s) event f] /\
  (forall e, e ≠ event -> subscribers (after_once event f s) e = subscribers s e) /\
  closures (after_once event f s) = S (closures s).
Proof.
  intros Hwf Hget. rewrite after_once_unfold by done. split; [|split].
  - by rewrite (on_subscribers _ _ (set_closures _ s)).
  - intros e Hne. by rewrite (on_subscribers_ne _ _ _ (set_closures _ s)).
  - by rewrite closures_on.
Qed.

Lemma once_closures event f s :
  closures s <= closures (after_once event f s).
Proof.
  destruct (decide (events_get s event = Inherited)) as [Hi|Hget];
    [by rewrite after_once_thrown|].
  rewrite after_once_unfold, closures_on by done. simpl. lia.
Qed.

Lemma once_subscribers_adds event e g c s :
  wf s -> c ∈ subscribers (after_once e g s) event ->
  c ∈ subscribers s event \/ c = OnceCallback (closures s) e g.
Proof.
  intros Hwf Hin.
  destruct (decide (events_get s e = Inherited)) as [Hi|Hget];
    [rewrite after_once_thrown in Hin by done; by left|].
  rewrite after_once_unfold in Hin by done.
  apply (on_subscribers_adds _ _ _ _ (set_closures _ s)) in Hin as [|[-> _]];
    [by left | by right | done].
Qed.

Lemma once_subscribers_keeps event e g c s :
  wf s -> c ∈ subscribers s event -> c ∈ subscribers (after_once e g s) event.
Proof.
  intros Hwf Hin.
  destruct (decide (events_get s e = Inherited)) as [Hi|Hget];
    [by rewrite after_once_thrown|].
  rewrite after_once_unfold by done.
  by apply (on_subscribers_keeps _ _ _ _ (set_closures _ s)).
Qed.

(** An [emit] of an event a wrapper of [once] is subscribed to calls the
    wrapped function with the published value. *)
Lemma subscribed_wrapper_calls_function n event f fuel d s r s' tr :
  publish fuel event d s = Some (r, s', tr) ->
  OnceCallback n event f ∈ subscribers s event ->
  (OnceCallback n event f, d) ∈ top_calls tr /\
  (exists inner r1 r2,
     Invoked (OnceCallback n event f) d [Invoked (User f) d inner r1] r2 ∈ tr) /\
  (User f, d) ∈ all_calls tr.
Proof.
  intros Hrun Hsub.
  assert (Htop : (OnceCallback n event f, d) ∈ top_calls tr).
  { rewrite (publish_top_calls _ _ _ _ _ _ _ Hrun). apply list_elem_of_fmap.
    eexists. split; [done|]. done. }
  split; [done|].
  apply top_calls_entry in Htop as (inner & r0 & Hin).
  destruct (publish_entries _ _ _ _ _ _ _ _ Hrun Hin)
    as [|(cb & s0 & r1 & s2 & Hc)]; [done|].
  destruct (call_sound _ _ _ _ _ _ _ Hc) as [_ [inner0 Heq]].
  inversion Heq; subst.
  apply call_wrapper_shape in Hc as (inner1 & r2 & Hc). inversion Hc; subst.
  split; [by exists inner1, r2, r1|].
  eapply all_calls_entry; [exact Hin|]. simpl. right. by left.
Qed.

(** X2.  [off(event, f)] does not cancel [once(event, f)]: what [once]
    registers is its own wrapper, which no call of [off] by the application
    can name.  Under an event name that [Object.prototype] does not have,
    [once(event, f)] and then [off(event, f)] return, the wrapper is still
    the last subscriber of the event, and the next [emit] of the event
    calls the wrapper, which calls [f] with the published value. *)
Theorem once_survives_off event f s :
  wf s -> inherited event = false ->
  exists s0 s1,
    once event f s = Normal s0 /\ off event (User f) s0 = Normal s1 /\
    subscribers s1 event =
      filter (λ c, c ≠ User f) (subscribers s event)
        ++ [OnceCallback (closures s) event f] /\
    forall fuel d r s' tr, publish fuel event d s1 = Some (r, s', tr) ->
      r = Returned /\
      (exists inner r1 r2,
         Invoked (OnceCallback (closures s) event f) d
           [Invoked (User f) d inner r1] r2 ∈ tr) /\
      (User f, d) ∈ all_calls tr.
Proof.
  intros Hwf Hord.
  assert (Hget : forall s0, events_get s0 event ≠ Inherited).
  { intros s0. by apply events_get_ordinary. }
  set (s1 := after_off event (User f) (after_once event f s)).
  assert (Hsub : subscribers s1 event =
            filter (λ c, c ≠ User f) (subscribers s event)
              ++ [OnceCallback (closures s) event f]).
  { unfold s1. rewrite off_subscribers.
    destruct (once_subscribers event f s Hwf (Hget s)) as [-> _].
    rewrite filter_app, filter_cons, filter_nil.
    destruct (decide (OnceCallback (closures s) event f ≠ User f)) as [|Hd];
      [done|]. by destruct Hd. }
  exists (after_once event f s), s1.
  split; [by apply once_returns|]. split; [by apply off_returns|].
  split; [done|]. intros fuel d r s' tr Hrun.
  split; [by eapply publish_returned|].
  eapply subscribed_wrapper_calls_function; [exact Hrun|].
  rewrite Hsub. apply elem_of_app. right. by left.
Qed.

(** The wrapper [OnceCallback n event f] is not registered under its event,
    and no wrapper made later has its number. *)
Definition spent (n : nat) event (f : nat) s : Prop :=
  wf s /\ n < closures s /\ OnceCallback n event f ∉ subscribers s event.

(** The bus is well formed and no wrapper made from now on has number [n]. *)
Definition live (n : nat) s : Prop := wf s /\ n < closures s.

Lemma live_call n fuel cb d s r s' t :
  call fuel cb d s = Some (r, s', t) -> live n s -> live n s'.
Proof.
  apply (call_preserved (live n)).
  - intros e0 g s0 [Hw Hc]. split; [by apply wf_on|]. by rewrite closures_on.
  - intros e0 cb0 s0 [Hw Hc]. split; [by apply wf_off|]. by rewrite closures_off.
  - intros e0 g s0 [Hw Hc]. split; [by apply wf_once|].
    pose proof (once_closures e0 g s0). lia.
  - intros s0 [Hw Hc]. split; [by apply wf_clear | done].
  - done.
Qed.

Lemma spent_call n event f fuel cb d s r s' t :
  call fuel cb d s = Some (r, s', t) -> spent n event f s -> spent n event f s'.
Proof.
  apply (call_preserved (spent n event f)).
  - intros e0 g s0 (Hw & Hc & Hn). split; [by apply wf_on|].
    rewrite closures_on. split; [done|].
    intros [Hin|[Hin _]]%on_subscribers_adds; done.
  - intros e0 cb0 s0 (Hw & Hc & Hn). split; [by apply wf_off|].
    rewrite closures_off. split; [done|].
    destruct (decide (event = e0)) as [<-|Hne].
    + rewrite off_subscribers. by intros [_ H]%list_elem_of_filter.
    + by rewrite off_subscribers_ne.
  - intros e0 g s0 (Hw & Hc & Hn). split; [by apply wf_once|].
    pose proof (once_closures e0 g s0). split; [lia|].
    intros [Hin|Hin]%once_subscribers_adds; [done| |done].
    inversion Hin. lia.
  - intros s0 (Hw & Hc & Hn). split; [by apply wf_clear|]. split; [done|].
    apply not_elem_of_nil.
  - done.
Qed.

(** A wrapper that has returned is spent. *)
Lemma spent_on_return n event f fuel d s s' t :
  call fuel (OnceCallback n event f) d s = Some (Returned, s', t) ->
  live n s -> spent n event f s'.
Proof.
  intros Hcall Hlive.
  destruct (live_call _ _ _ _ _ _ _ _ Hcall Hlive) as [Hw Hc].
  split; [done|]. split; [done|].
  by eapply once_callback_removed_on_return.
Qed.

Lemma call_in_turn_spends n event f fuel e d cbs : forall s s' tr,
  call_in_turn fuel e d cbs s = Some (s', tr) -> live n s ->
  spent n event f s \/
    (exists inner, Invoked (OnceCallback n event f) d inner Returned ∈ tr) ->
  spent n event f s'.
Proof.
  induction cbs as [|cb cbs IH]; intros s s' tr Hrun Hlive Hcase; simpl in Hrun.
  - inversion Hrun; subst. destruct Hcase as [|[inner Hin]]; [done|].
    by apply elem_of_nil in Hin.
  - destruct (call fuel cb d s) as [[[r s1] t]|] eqn:Hc; [|done].
    destruct (call_in_turn fuel e d cbs s1) as [[s2 ts]|] eqn:Hrest; [|done].
    pose proof (live_call _ _ _ _ _ _ _ _ Hc Hlive) as Hlive1.
    destruct (call_sound _ _ _ _ _ _ _ Hc) as [_ [inner0 ->]].
    assert (Hs' : s2 = s') by (by inversion Hrun). subst s2.
    eapply IH; [exact Hrest | exact Hlive1 |].
    destruct Hcase as [Hs|[inner Hin]]; [left; by eapply spent_call|].
    assert (Hhere : Invoked (OnceCallback n event f) d inner Returned
                      = Invoked cb d inner0 r -> spent n event f s1).
    { intros Heq. inversion Heq; subst. by eapply spent_on_return. }
    inversion Hrun; subst. destruct r.
    + apply elem_of_cons in Hin as [Heq|Hin]; [left; eauto | right; eauto].
    + apply elem_of_cons in Hin as [Heq|Hin]; [left; eauto|].
      apply elem_of_cons in Hin as [Heq|Hin]; [done | right; eauto].
Qed.

(** X3.  Under an event name that [Object.prototype] does not have, a
    function registered with [once] is called by the next [emit] of its
    event, and once its wrapper has returned from that call the wrapper is
    unsubscribed for good: it is not among the subscribers when the [emit]
    ends, it is not subscribed again by anything that happens in later
    [emit]s, and no later [emit] of the event calls it. *)
Theorem once_unsubscribes_after_return event f s :
  wf s -> inherited event = false ->
  let wrapper := OnceCallback (closures s) event f in
  exists s0,
    once event f s = Normal s0 /\
    subscribers s0 event = subscribers s event ++ [wrapper] /\
    forall fuel d r s1 tr, publish fuel event d s0 = Some (r, s1, tr) ->
      r = Returned /\
      (exists inner r1 r2,
         Invoked wrapper d [Invoked (User f) d inner r1] r2 ∈ tr) /\
      ((exists inner, Invoked wrapper d inner Returned ∈ tr) ->
       (wrapper ∉ subscribers s1 event) /\
       (forall fuel' e d' r' s2 tr',
          publish fuel' e d' s1 = Some (r', s2, tr') ->
          wrapper ∉ subscribers s2 event) /\
       (forall fuel' d' r' s2 tr',
          publish fuel' event d' s1 = Some (r', s2, tr') ->
          forall d'', (wrapper, d'') ∉ top_calls tr')).
Proof.
  intros Hwf Hord wrapper.
  assert (Hget : forall s0, events_get s0 event ≠ Inherited).
  { intros s0. by apply events_get_ordinary. }
  destruct (once_subscribers event f s Hwf (Hget s)) as (Hsub & _ & Hcl).
  exists (after_once event f s). split; [by apply once_returns|].
  split; [done|]. intros fuel d r s1 tr Hrun.
  split; [by eapply publish_returned|]. split.
  - eapply subscribed_wrapper_calls_function; [exact Hrun|].
    rewrite Hsub. apply elem_of_app. right. by left.
  - intros Hret.
    assert (Hspent : spent (closures s) event f s1).
    { assert (Hlive : live (closures s) (after_once event f s)).
      { split; [by apply wf_once|]. rewrite Hcl. lia. }
      rewrite publish_call_in_turn in Hrun by done.
      destruct (call_in_turn _ _ _ _ _) as [[s2 tr2]|] eqn:Hc; [|done].
      inversion Hrun; subst.
      eapply call_in_turn_spends; [exact Hc | exact Hlive | by right]. }
    split; [apply Hspent|]. split.
    + intros fuel' e d' r' s2 tr' Hrun'.
      assert (Hspent' : spent (closures s) event f s2); [|apply Hspent'].
      revert Hrun' Hspent.
      apply (emit_preserved (spent (closures s) event f)).
      intros cb d0 s0 r0 s3 t. apply spent_call.
    + intros fuel' d' r' s2 tr' Hrun' d''.
      rewrite (publish_top_calls _ _ _ _ _ _ _ Hrun').
      intros [c [Hc Hin]]%list_elem_of_fmap. inversion Hc; subst.
      by destruct Hspent as (_ & _ & Hn).
Qed.

(** A body that never calls [clear]. *)
Fixpoint clear_free (p : prog) : Prop :=
  match p with
  | Return | Throw => True
  | CallOn _ _ k | CallOff _ _ k | CallOnce _ _ k | CallEmit _ _ k | Store _ k =>
      clear_free k
  | CallClear _ => False
  | Load k => forall w, clear_free (k w)
  end.

(** The wrapper [cb] is subscribed to [event] in a well-formed bus. *)
Definition waiting cb event s : Prop := wf s /\ cb ∈ subscribers s event.

Lemma waiting_on cb event e g s :
  waiting cb event s -> waiting cb event (after_on e g s).
Proof.
  intros [Hw Hin]. split; [by apply wf_on | by apply on_subscribers_keeps].
Qed.

Lemma waiting_once cb event e g s :
  waiting cb event s -> waiting cb event (after_once e g s).
Proof.
  intros [Hw Hin]. split; [by apply wf_once | by apply once_subscribers_keeps].
Qed.

Lemma waiting_off cb event e g s :
  g ≠ cb -> waiting cb event s -> waiting cb event (after_off e g s).
Proof.
  intros Hg [Hw Hin]. split; [by apply wf_off|].
  destruct (decide (event = e)) as [<-|Hne].
  - rewrite off_subscribers. apply list_elem_of_filter. split; [congruence|done].
  - by rewrite off_subscribers_ne.
Qed.

Lemma run_keeps_waiting call' n event f p : forall s r s' tr,
  emit_free p -> clear_free p ->
  run call' p s = Some (r, s', tr) ->
  waiting (OnceCallback n event f) event s ->
  waiting (OnceCallback n event f) event s'.
Proof.
  induction p as [| |e g k IH|e g k IH|e g k IH|e d k IH|k IH|k IH|w k IH];
    intros s r s' tr He Hc Hrun Hwait; simpl in He, Hc; try done.
  - by inversion Hrun; subst.
  - by inversion Hrun; subst.
  - rewrite run_CallOn in Hrun. destruct (decide _).
    + by inversion Hrun; subst.
    + eapply IH; [done | done | exact Hrun|]. by apply waiting_on.
  - rewrite run_CallOff in Hrun. destruct (decide _).
    + by inversion Hrun; subst.
    + eapply IH; [done | done | exact Hrun|]. by apply waiting_off.
  - rewrite run_CallOnce in Hrun. destruct (decide _).
    + by inversion Hrun; subst.
    + eapply IH; [done | done | exact Hrun|]. by apply waiting_once.
  - cbn [run] in Hrun. by eapply IH.
  - cbn [run] in Hrun. by eapply IH.
Qed.

Lemma call_keeps_waiting n event f fuel cb d s r s' t :
  (forall g d', emit_free (code g d') /\ clear_free (code g d')) ->
  call fuel cb d s = Some (r, s', t) ->
  (cb = OnceCallback n event f -> r = Threw) ->
  waiting (OnceCallback n event f) event s ->
  waiting (OnceCallback n event f) event s'.
Proof.
  intros Hquiet Hcall Hthrew Hwait.
  assert (Huser : forall fuel0 g s0 r0 s1 t0,
            call fuel0 (User g) d s0 = Some (r0, s1, t0) ->
            waiting (OnceCallback n event f) event s0 ->
            waiting (OnceCallback n event f) event s1).
  { intros [|fuel0] g s0 r0 s1 t0 H0 Hw0; [done|]. rewrite call_User in H0.
    destruct (run (call fuel0) (code g d) s0) as [[[r1 s2] t1]|] eqn:Hrun; [|done].
    inversion H0; subst. destruct (Hquiet g d) as [He Hc].
    by eapply run_keeps_waiting. }
  destruct fuel as [|fuel]; [done|]. destruct cb as [g|n' e' g].
  - by eapply Huser.
  - rewrite call_OnceCallback in Hcall.
    destruct (call fuel (User g) d s) as [[[r1 s1] t1]|] eqn:Hin; [|done].
    apply Huser in Hin; [|done].
    destruct r1; [destruct (decide _)|]; inversion Hcall; subst; [done| |done].
    apply waiting_off; [|done]. intros Heq. by specialize (Hthrew Heq).
Qed.

Lemma call_in_turn_keeps_waiting n event f fuel e d cbs :
  (forall g d', emit_free (code g d') /\ clear_free (code g d')) ->
  forall s s' tr,
  call_in_turn fuel e d cbs s = Some (s', tr) ->
  (forall inner r, Invoked (OnceCallback n event f) d inner r ∈ tr -> r = Threw) ->
  waiting (OnceCallback n event f) event s ->
  waiting (OnceCallback n event f) event s'.
Proof.
  intros Hquiet. induction cbs as [|cb cbs IH]; intros s s' tr Hrun Hthrew Hwait;
    simpl in Hrun.
  - by inversion Hrun; subst.
  - destruct (call fuel cb d s) as [[[r s1] t]|] eqn:Hc; [|done].
    destruct (call_in_turn fuel e d cbs s1) as [[s2 ts]|] eqn:Hrest; [|done].
    destruct (call_sound _ _ _ _ _ _ _ Hc) as [_ [inner0 ->]].
    assert (Hs' : s2 = s') by (by inversion Hrun). subst s2.
    assert (Htr : Invoked cb d inner0 r ∈ tr /\ forall t, t ∈ ts -> t ∈ tr).
    { inversion Hrun; subst. destruct r.
      - split; [by left | intros t Ht; by right].
      - split; [by left | intros t Ht; right; by right]. }
    destruct Htr as [Hhead Htail].
    eapply IH; [exact Hrest | |].
    + intros inner r0 Hin. eapply Hthrew, Htail, Hin.
    + eapply call_keeps_waiting; [exact Hquiet | exact Hc | | exact Hwait].
      intros ->. by eapply Hthrew.
Qed.

(** X4.  A function registered with [once] that throws stays subscribed:
    the wrapper calls [off] only after the function has returned.  Under an
    event name that [Object.prototype] does not have, when no function of
    the application publishes or clears the bus on its own, and each call
    of the wrapper in an [emit] of the event ended in an exception, the
    wrapper is still subscribed when that [emit] ends, and the next [emit]
    of the event calls the wrapper, which calls the function again. *)
Theorem once_stays_subscribed_on_throw event f s :
  wf s -> inherited event = false ->
  (forall g d', emit_free (code g d') /\ clear_free (code g d')) ->
  let wrapper := OnceCallback (closures s) event f in
  exists s0,
    once event f s = Normal s0 /\
    forall fuel d r s1 tr, publish fuel event d s0 = Some (r, s1, tr) ->
      (forall inner r0, Invoked wrapper d inner r0 ∈ tr -> r0 = Threw) ->
      wrapper ∈ subscribers s1 event /\
      forall fuel' d' r' s2 tr',
        publish fuel' event d' s1 = Some (r', s2, tr') ->
        r' = Returned /\
        (exists inner r1 r2,
           Invoked wrapper d' [Invoked (User f) d' inner r1] r2 ∈ tr') /\
        (User f, d') ∈ all_calls tr'.
Proof.
  intros Hwf Hord Hquiet wrapper.
  assert (Hget : forall s0, events_get s0 event ≠ Inherited).
  { intros s0. by apply events_get_ordinary. }
  exists (after_once event f s). split; [by apply once_returns|].
  intros fuel d r s1 tr Hrun Hthrew.
  destruct (once_subscribers event f s Hwf (Hget s)) as (Hsub & _ & _).
  assert (Hwait : waiting wrapper event s1).
  { assert (Hwait0 : waiting wrapper event (after_once event f s)).
    { split; [by apply wf_once|]. rewrite Hsub. apply elem_of_app. right. by left. }
    rewrite publish_call_in_turn in Hrun by done.
    destruct (call_in_turn _ _ _ _ _) as [[s2 tr2]|] eqn:Hc; [|done].
    inversion Hrun; subst. by eapply call_in_turn_keeps_waiting. }
  split; [apply Hwait|]. intros fuel' d' r' s2 tr' Hrun'.
  split; [by eapply publish_returned|].
  eapply subscribed_wrapper_calls_function; [exact Hrun' | apply Hwait].
Qed.

(** [on(event, cb)] for each callback of a list, in order. *)
Fixpoint on_all event (cbs : list callback) s : completion state :=
  match cbs with
  | [] => Normal s
  | cb :: cbs' =>
      match on event cb s with
      | Normal (s1, _) => on_all event cbs' s1
      | TypeError => TypeError
      end
  end.

Lemma on_all_spec event cbs : forall s,
  wf s -> inherited event = false ->
  exists s1,
    on_all event cbs s = Normal s1 /\ wf s1 /\
    subscribers s1 event = subscribers s event ++ cbs /\
    forall e, e ≠ event -> subscribers s1 e = subscribers s e.
Proof.
  induction cbs as [|cb cbs IH]; intros s Hwf Hord.
  - exists s. by rewrite app_nil_r.
  - pose proof (events_get_ordinary s _ Hord) as Hget.
    destruct (IH (after_on event cb s) (wf_on _ _ _ Hwf) Hord)
      as (s1 & Hall & Hw & Hs & Ho).
    exists s1. simpl. rewrite on_returns by done.
    split; [done|]. split; [done|]. split.
    + rewrite Hs, on_subscribers by done. by rewrite <- app_assoc.
    + intros e Hne. by rewrite Ho, on_subscribers_ne.
Qed.

(** X5.  Subscriptions accumulate in call order, duplicates included.
    Under an event name that [Object.prototype] does not have, the calls
    [on(event, cb)] for the callbacks of a list all return; afterwards the
    subscribers of the event are the former ones followed by the list, the
    other events are untouched, and an [emit] of the event is the calls of
    these subscribers in exactly that order, a callback subscribed twice
    being called twice. *)
Theorem on_accumulates_in_order event cbs s :
  wf s -> inherited event = false ->
  exists s1,
    on_all event cbs s = Normal s1 /\
    subscribers s1 event = subscribers s event ++ cbs /\
    (forall e, e ≠ event -> subscribers s1 e = subscribers s e) /\
    (forall fuel d,
       publish fuel event d s1 =
       match call_in_turn fuel event d (subscribers s event ++ cbs) s1 with
       | None => None
       | Some (s', tr) => Some (Returned, s', tr)
       end) /\
    (forall fuel d r s' tr, publish fuel event d s1 = Some (r, s', tr) ->
       top_calls tr = map (λ cb, (cb, d)) (subscribers s event ++ cbs)).
Proof.
  intros Hwf Hord.
  destruct (on_all_spec event cbs s Hwf Hord) as (s1 & Hall & _ & Hs & Ho).
  exists s1. split; [done|]. split; [done|]. split; [done|]. split.
  - intros fuel d.
    rewrite publish_call_in_turn by (by apply events_get_ordinary).
    by rewrite Hs.
  - intros fuel d r s' tr Hrun.
    by rewrite (publish_top_calls _ _ _ _ _ _ _ Hrun), Hs.
Qed.

(** X6.  [clear()] unsubscribes everything, the wrappers of [once]
    included: no event has a subscriber or is listed by [getEvents()].
    Afterwards the bus is as good as new: under a name that
    [Object.prototype] does not have, an [emit] calls nothing and changes
    nothing and [on] starts a list of its own; under a name of
    [Object.prototype], [emit] and [on] throw. *)
Theorem clear_unsubscribes_all s :
  (forall event, subscribers (clear s) event = []) /\
  getEvents (clear s) = ∅ /\
  (forall fuel event d,
     publish fuel event d (clear s) =
     Some (if inherited event then Threw else Returned, clear s, [])) /\
  (forall event cb,
     if inherited event then on event cb (clear s) = TypeError
     else exists s1 h,
       on event cb (clear s) = Normal (s1, h) /\ subscribers s1 event = [cb]).
Proof.
  assert (Hwf : wf (clear s)).
  { split; simpl; [apply map_Forall_empty|].
    intros e1 e2 a H. by rewrite lookup_empty in H. }
  assert (Hnil : forall event, subscribers (clear s) event = []).
  { intros event. unfold subscribers, clear. simpl. by rewrite lookup_empty. }
  assert (Hget : forall event, events_get (clear s) event =
            if inherited event then Inherited else Undefined).
  { intros event. unfold events_get, clear. simpl. by rewrite lookup_empty. }
  split; [done|]. split; [|split].
  - unfold getEvents, clear. simpl. apply dom_empty_L.
  - intros fuel event d. unfold publish, emit. rewrite Hget.
    by destruct (inherited event).
  - intros event cb. destruct (inherited event) eqn:He.
    + apply on_throws. by rewrite Hget, He.
    + assert (Hok : events_get (clear s) event ≠ Inherited)
        by (by rewrite Hget, He).
      exists (after_on event cb (clear s)), (off event cb).
      split; [by apply on_returns|].
      rewrite on_subscribers by done. by rewrite Hnil.
Qed.

(** X18.  Subscribing and then calling the returned closure is a round
    trip.  Under an event name that [Object.prototype] does not have, [on]
    returns and so does the closure; when the function was not subscribed to
    the event before, every event has the subscribers it had, in the same
    order, and [getEvents()] lists the same events ([off] deletes the key
    [on] had to create). *)
Theorem on_then_unsubscribe_round_trip event f s :
  reachable s -> inherited event = false -> User f ∉ subscribers s event ->
  exists s1 h s2,
    on event (User f) s = Normal (s1, h) /\ h s1 = Normal s2 /\
    (forall e, subscribers s2 e = subscribers s e) /\
    getEvents s2 = getEvents s.
Proof.
  intros Hreach Hord Hn.
  assert (Hget : forall s0, events_get s0 event ≠ Inherited).
  { intros s0. by apply events_get_ordinary. }
  set (s2 := after_off event (User f) (after_on event (User f) s)).
  assert (Hreach' : reachable s2).
  { by apply reachable_off, reachable_on. }
  destruct (reachable_sound _ Hreach) as (Hw & Ht & _).
  destruct (reachable_sound _ Hreach') as (Hw' & Ht' & _).
  assert (Hsub : forall e, subscribers s2 e = subscribers s e).
  { intros e. unfold s2. destruct (decide (e = event)) as [->|Hne].
    - rewrite off_subscribers, on_subscribers by done.
      rewrite filter_app, filter_ne_id by done.
      rewrite filter_cons, filter_nil.
      destruct (decide (User f ≠ User f)); [done|]. by rewrite app_nil_r.
    - rewrite off_subscribers_ne by (by try apply wf_on).
      by rewrite on_subscribers_ne. }
  exists (after_on event (User f) s), (off event (User f)), s2.
  split; [by apply on_returns|]. split; [by apply off_returns|].
  split; [done|]. apply set_eq. intros e.
  rewrite (getEvents_tidy _ _ Ht'), (getEvents_tidy _ _ Ht). by rewrite Hsub.
Qed.
End EventBus.

(** *** Concrete runs *)

(** Five functions of an application: [0] unsubscribes function [1] from
    ["e"], [1] adds its argument to a counter, [2] throws, [3] unsubscribes
    itself, [4] subscribes function [1] to ["e"]. *)
Definition demo_code (f d : nat) : prog (Data:=nat) (W:=nat) :=
  match f with
  | 0 => CallOff "e" 1 Return
  | 1 => Load (λ n, Store (n + d) Return)
  | 2 => Throw
  | 3 => CallOff "e" 3 Return
  | 4 => CallOn "e" 1 Return
  | _ => Return
  end.

Definition demo_state : state (W:=nat) :=
  after_on "e" (User 3) (after_on "e" (User 2) (after_on "e" (User 1)
    (after_on "e" (User 0) (initial 0)))).

Lemma demo_code_emit_free f d : emit_free (demo_code f d).
Proof. destruct f as [|[|[|[|[|f]]]]]; simpl; auto. Qed.

Lemma demo_state_wf : wf demo_state.
Proof. unfold demo_state. repeat apply wf_on. apply wf_initial. Qed.

(** Function [1] is removed by function [0] while ["e"] is being published:
    it is still called by that [publish], and not by the next one. *)
Example demo_publish :
  option_map (λ r, (r.1.1, top_calls r.2, subscribers r.1.2 "e", world r.1.2))
    (publish demo_code 2 "e" 5 demo_state)
  = Some (Returned, [(User 0, 5); (User 1, 5); (User 2, 5); (User 3, 5)],
          [User 0; User 2], 5).
Proof. vm_compute. reflexivity. Qed.

Example demo_publish_log :
  option_map snd (publish demo_code 2 "e" 5 demo_state)
  = Some [Invoked (User 0) 5 [] Returned; Invoked (User 1) 5 [] Returned;
          Invoked (User 2) 5 [] Threw; ConsoleError "e";
          Invoked (User 3) 5 [] Returned].
Proof. vm_compute. reflexivity. Qed.

(** Function [1] is subscribed by function [4] while ["e"] is being
    published: it is called by the next [publish] only. *)
Example demo_subscribe_during_publish :
  option_map (λ r, (r.1.1, top_calls r.2, subscribers r.1.2 "e", world r.1.2))
    (publish demo_code 2 "e" 5 (after_on "e" (User 4) (initial 0)))
  = Some (Returned, [(User 4, 5)], [User 4; User 1], 0).
Proof. vm_compute. reflexivity. Qed.

(** An application whose functions do nothing. *)
Definition idle_code (f d : nat) : prog (Data:=nat) (W:=unit) := Return.

(** Function [0] unsubscribes function [1] from ["e"] and publishes ["e"]
    again, with an argument one less, until the argument is [0]; function
    [1] adds its argument to a counter. *)
Definition countdown_code (f d : nat) : prog (Data:=nat) (W:=nat) :=
  match f, d with
  | 0, S n => CallOff "e" 1 (CallEmit "e" n Return)
  | 1, _ => Load (λ c, Store (c + d) Return)
  | _, _ => Return
  end.

Definition countdown_state : state (W:=nat) :=
  after_on "e" (User 1) (after_on "e" (User 0) (initial 0)).

(** Every call of a function of [countdown_code] completes, whatever the
    bus holds: the argument bounds the depth of the calls. *)
Lemma countdown_total d : forall cb s0,
  is_Some (call countdown_code (2 * d + 2) cb d s0).
Proof.
  induction d as [|n IH]; intros cb s0.
  - apply (call_emit_free countdown_code 0).
    intros [|[|f]]; simpl; auto.
  - assert (Hdeep : forall m cb0 s1, 2 * n + 2 <= m ->
              is_Some (call countdown_code m cb0 n s1)).
    { intros m cb0 s1 Hle. destruct (IH cb0 s1) as [x Hx].
      exists x. by apply (call_mono countdown_code (2 * n + 2)). }
    assert (Huser : forall m g s1, 2 * n + 2 <= m ->
              is_Some (call countdown_code (S m) (User g) (S n) s1)).
    { intros m g s1 Hle. rewrite call_User.
      destruct g as [|[|g]]; simpl countdown_code.
      - rewrite run_CallOff. destruct (decide _); [by eexists|].
        cbn [run].
        destruct (publish_within countdown_code m "e" n
                    (after_off "e" (User 1) s1)) as [[[r s2] t] Hp].
        { intros cb0 s3. by apply Hdeep. }
        unfold publish in Hp. rewrite Hp. destruct r; by eexists.
      - by eexists.
      - by eexists. }
    replace (2 * S n + 2) with (S (S (2 * n + 2))) by lia.
    destruct cb as [g|k e g]; [apply Huser; lia|].
    rewrite call_OnceCallback.
    destruct (Huser (2 * n + 2) g s0) as [[[[] s1] t] ->]; [lia| |];
      [destruct (decide _)|]; by eexists.
Qed.

(** Function [1] is removed by function [0], which publishes ["e"] again
    before it returns: function [1] is still called by the outer [publish],
    once. *)
Example countdown_publish :
  option_map (λ r, (r.1.1, top_calls r.2, subscribers r.1.2 "e", world r.1.2))
    (publish countdown_code 4 "e" 1 countdown_state)
  = Some (Returned, [(User 0, 1); (User 1, 1)], [User 0], 1).
Proof. vm_compute. reflexivity. Qed.

Lemma publish_unaffected_by_unsubscribe_witness :
  subscribers countdown_state "e" ≠ [] /\
  (forall cb s0, cb ∈ subscribers countdown_state "e" ->
     exists fuel, is_Some (call countdown_code fuel cb 1 s0)) /\
  exists fuel s' tr,
    publish countdown_code fuel "e" 1 countdown_state = Some (Returned, s', tr).
Proof.
  assert (H : subscribers countdown_state "e" ≠ []).
  { vm_compute. discriminate. }
  assert (Hcall : forall cb s0, cb ∈ subscribers countdown_state "e" ->
            exists fuel, is_Some (call countdown_code fuel cb 1 s0)).
  { intros cb s0 _. exists (2 * 1 + 2). apply countdown_total. }
  split; [exact H|]. split; [exact Hcall|].
  exact (proj1 (proj2 (proj2
    (publish_unaffected_by_unsubscribe countdown_code "e" 1 countdown_state H)))
    Hcall).
Defined.

(** C3 as the specification states it fails: after [on("", cb)] on a new bus
    the empty name has a subscriber. *)
Lemma on_empty_name_counterexample :
  subscribers (after_on "" (User 0) (initial tt)) "" ≠ [].
Proof. vm_compute. discriminate. Qed.

Lemma on_empty_name_registers_witness :
  wf (initial tt) /\
  on "" (User 0) (initial tt)
    = Normal (after_on "" (User 0) (initial tt), off "" (User 0)) /\
  subscribers (after_on "" (User 0) (initial tt)) "" =
    subscribers (initial tt) "" ++ [User 0].
Proof.
  split; [apply wf_initial|].
  destruct (on_empty_name_registers (Data:=nat) (λ _ _, Return) (User 0)
              (initial tt) (wf_initial tt)) as (H1 & H2 & _).
  exact (conj H1 H2).
Defined.

Lemma off_removes_every_registration_witness :
  reachable idle_code (initial tt) /\
  exists s3,
    off "e" (User 0)
      (after_on "e" (User 0) (after_on "e" (User 0) (initial tt))) = Normal s3 /\
    subscribers s3 "e" = filter (λ c, c ≠ User 0) (subscribers (initial tt) "e").
Proof.
  assert (Hr : reachable idle_code (initial tt)) by apply reachable_initial.
  assert (H1 : on "e" (User 0) (initial tt)
               = Normal (after_on "e" (User 0) (initial tt), off "e" (User 0))).
  { vm_compute. reflexivity. }
  assert (H2 : on "e" (User 0) (after_on "e" (User 0) (initial tt))
               = Normal (after_on "e" (User 0) (after_on "e" (User 0) (initial tt)),
                         off "e" (User 0))).
  { vm_compute. reflexivity. }
  split; [exact Hr|].
  destruct (off_removes_every_registration idle_code "e" (User 0) (initial tt)
              _ _ _ _ Hr H1 H2) as (_ & _ & H).
  destruct (H (off "e" (User 0)) (or_introl eq_refl)) as (s3 & Hoff & Hsub & _).
  exists s3. exact (conj Hoff Hsub).
Defined.

(** A function registered with [once] that publishes the event again the
    first time it is called (with argument [1]). *)
Definition reentrant_code (f d : nat) : prog (Data:=nat) (W:=unit) :=
  match f, d with
  | 0, 1 => CallEmit "e" 2 Return
  | _, _ => Return
  end.

(** C2 on the code: [once("e", f)] followed by one [publish("e", 1)] during
    which [f] publishes ["e"] again.  The wrapper is still registered while
    [f] runs, so the inner [publish] reaches [f] a second time. *)
Lemma once_reentrant_publish_calls_twice :
  once "e" 0 (initial tt) = Normal (after_once "e" 0 (initial tt)) /\
  option_map (λ r, (r.1.1, filter (λ c, c.1 = User 0) (all_calls r.2),
                    subscribers r.1.2 "e"))
    (publish reentrant_code 4 "e" 1 (after_once "e" 0 (initial tt)))
  = Some (Returned, [(User 0, 1); (User 0, 2)], []).
Proof. split; vm_compute; reflexivity. Qed.

(** *** Concrete runs of [getEvents], [once] and [on] *)

Lemma getEvents_lists_subscribed_events_witness :
  reachable idle_code (after_off "e" (User 0) (after_on "e" (User 0) (initial tt))) /\
  ("e" ∈ getEvents (after_off "e" (User 0) (after_on "e" (User 0) (initial tt))) <->
   subscribers (after_off "e" (User 0) (after_on "e" (User 0) (initial tt))) "e" ≠ []).
Proof.
  assert (H : reachable idle_code
                (after_off "e" (User 0) (after_on "e" (User 0) (initial tt)))).
  { apply reachable_off, reachable_on, reachable_initial. }
  split; [exact H|].
  apply (getEvents_lists_subscribed_events idle_code _ "e" H).
Defined.

Lemma publish_calls_subscribers_in_turn_witness :
  inherited "e" = false /\
  forall fuel r s' tr, publish demo_code fuel "e" 5 demo_state = Some (r, s', tr) ->
    r = Returned /\
    top_calls tr = map (λ cb, (cb, 5)) (subscribers demo_state "e").
Proof.
  split; [reflexivity|].
  exact (proj1 (proj2
    (publish_calls_subscribers_in_turn demo_code "e" 5 demo_state eq_refl))).
Defined.

Lemma off_ordinary_name_idempotent_witness :
  wf demo_state /\ inherited "e" = false /\
  exists s1 s2,
    off "e" (User 1) demo_state = Normal s1 /\ off "e" (User 1) s1 = Normal s2 /\
    forall e, subscribers s2 e = subscribers s1 e.
Proof.
  split; [exact demo_state_wf|]. split; [reflexivity|].
  destruct (off_ordinary_name_idempotent "e" (User 1) demo_state
              demo_state_wf eq_refl) as (s1 & s2 & H1 & H2 & H3 & _).
  exists s1, s2. exact (conj H1 (conj H2 H3)).
Defined.

Lemma prototype_names_always_throw_witness :
  reachable idle_code (after_on "e" (User 0) (initial tt)) /\
  inherited "valueOf" = true /\
  publish idle_code 1 "valueOf" 7 (after_on "e" (User 0) (initial tt))
    = Some (Threw, after_on "e" (User 0) (initial tt), []).
Proof.
  assert (H : reachable idle_code (after_on "e" (User 0) (initial tt))).
  { apply reachable_on, reachable_initial. }
  split; [exact H|]. split; [reflexivity|].
  destruct (prototype_names_always_throw idle_code "valueOf" _ H eq_refl)
    as (_ & _ & _ & _ & _ & Hp).
  exact (Hp 1 7).
Defined.

Lemma once_survives_off_witness :
  wf (initial tt) /\ inherited "e" = false /\
  exists s0 s1,
    once "e" 0 (initial tt) = Normal s0 /\ off "e" (User 0) s0 = Normal s1 /\
    subscribers s1 "e" =
      filter (λ c, c ≠ User 0) (subscribers (initial tt) "e")
        ++ [OnceCallback 0 "e" 0].
Proof.
  split; [apply wf_initial|]. split; [reflexivity|].
  destruct (once_survives_off (Data:=nat) (λ _ _, Return) "e" 0 (initial tt)
              (wf_initial tt) eq_refl) as (s0 & s1 & H1 & H2 & H3 & _).
  exists s0, s1. exact (conj H1 (conj H2 H3)).
Defined.

Lemma once_unsubscribes_after_return_witness :
  wf demo_state /\ inherited "e" = false /\
  exists s0,
    once "e" 1 demo_state = Normal s0 /\
    subscribers s0 "e" = subscribers demo_state "e" ++ [OnceCallback 0 "e" 1].
Proof.
  split; [exact demo_state_wf|]. split; [reflexivity|].
  destruct (once_unsubscribes_after_return demo_code "e" 1 demo_state
              demo_state_wf eq_refl) as (s0 & H1 & H2 & _).
  exists s0. exact (conj H1 H2).
Defined.

(** Function [1], registered with [once], is called by the first [emit] and
    not by the second. *)
Example demo_once_twice :
  match publish demo_code 3 "e" 5 (after_once "e" 1 (initial 0)) with
  | Some (_, s1, tr1) =>
      option_map (λ r, (all_calls tr1, all_calls r.2, world r.1.2))
        (publish demo_code 3 "e" 7 s1)
  | None => None
  end = Some ([(OnceCallback 0 "e" 1, 5); (User 1, 5)], [], 5).
Proof. vm_compute. reflexivity. Qed.

Lemma demo_code_quiet f d :
  emit_free (demo_code f d) /\ clear_free (demo_code f d).
Proof. destruct f as [|[|[|[|[|f]]]]]; simpl; auto. Qed.

(** Function [2], which throws, registered with [once]: it is called by
    the first [emit] and by the second. *)
Example demo_thrown_twice :
  match publish demo_code 3 "e" 5 (after_once "e" 2 (initial 0)) with
  | Some (_, s1, tr1) =>
      option_map (λ r, (all_calls tr1, all_calls r.2, subscribers r.1.2 "e"))
        (publish demo_code 3 "e" 7 s1)
  | None => None
  end = Some ([(OnceCallback 0 "e" 2, 5); (User 2, 5)],
              [(OnceCallback 0 "e" 2, 7); (User 2, 7)],
              [OnceCallback 0 "e" 2]).
Proof. vm_compute. reflexivity. Qed.

Lemma once_stays_subscribed_on_throw_witness :
  wf (initial 0) /\ inherited "e" = false /\
  (forall g d, emit_free (demo_code g d) /\ clear_free (demo_code g d)) /\
  exists s0,
    once "e" 2 (initial 0) = Normal s0 /\
    forall fuel d r s1 tr, publish demo_code fuel "e" d s0 = Some (r, s1, tr) ->
      (forall inner r0,
         Invoked (OnceCallback 0 "e" 2) d inner r0 ∈ tr -> r0 = Threw) ->
      OnceCallback 0 "e" 2 ∈ subscribers s1 "e".
Proof.
  split; [apply wf_initial|]. split; [reflexivity|].
  split; [exact demo_code_quiet|].
  destruct (once_stays_subscribed_on_throw demo_code "e" 2 (initial 0)
              (wf_initial 0) eq_refl demo_code_quiet) as (s0 & H1 & H2).
  exists s0. split; [exact H1|].
  intros fuel d r s1 tr Hrun Hthrew.
  exact (proj1 (H2 fuel d r s1 tr Hrun Hthrew)).
Defined.

Lemma on_accumulates_in_order_witness :
  wf (initial tt) /\ inherited "e" = false /\
  exists s1,
    on_all "e" [User 0; User 1; User 0] (initial tt) = Normal s1 /\
    subscribers s1 "e" = subscribers (initial tt) "e" ++ [User 0; User 1; User 0].
Proof.
  split; [apply wf_initial|]. split; [reflexivity|].
  destruct (on_accumulates_in_order (Data:=nat) (λ _ _, Return) "e"
              [User 0; User 1; User 0] (initial tt) (wf_initial tt) eq_refl)
    as (s1 & H1 & H2 & _).
  exists s1. exact (conj H1 H2).
Defined.

Lemma on_then_unsubscribe_round_trip_witness :
  reachable idle_code (after_on "e" (User 1) (initial tt)) /\
  inherited "e" = false /\
  (User 0 ∉ subscribers (after_on "e" (User 1) (initial tt)) "e") /\
  exists s1 h s2,
    on "e" (User 0) (after_on "e" (User 1) (initial tt)) = Normal (s1, h) /\
    h s1 = Normal s2 /\
    getEvents s2 = getEvents (after_on "e" (User 1) (initial tt)).
Proof.
  assert (H : reachable idle_code (after_on "e" (User 1) (initial tt))).
  { apply reachable_on, reachable_initial. }
  assert (Hn : User 0 ∉ subscribers (after_on "e" (User 1) (initial tt)) "e").
  { vm_compute. intros Hin. apply list_elem_of_singleton in Hin. done. }
  split; [exact H|]. split; [reflexivity|]. split; [exact Hn|].
  destruct (on_then_unsubscribe_round_trip idle_code "e" 0 _ H eq_refl Hn)
    as (s1 & h & s2 & H1 & H2 & _ & H3).
  exists s1, h, s2. exact (conj H1 (conj H2 H3)).
Defined.

End Bus.

(** ** The optimistic overlay *)

Module Overlay.

(** [src/types/todo.ts] *)
Record Todo : Type := mkTodo {
  todo_id : string;
  todo_text : string;
  todo_completed : bool;
  todo_createdAt : Z
}.

(** [src/features/tasks/types/index.ts] *)
Inductive Priority : Type := low | medium | high.

Record Task : Type := mkTask {
  task_id : string;
  task_title : string;
  task_description : option string;
  task_completed : bool;
  task_priority : Priority;
  task_createdAt : Z;
  task_updatedAt : Z
}.

#[global] Instance Todo_eq_dec : EqDecision Todo.
Proof. solve_decision. Defined.
#[global] Instance Priority_eq_dec : EqDecision Priority.
Proof. solve_decision. Defined.
#[global] Instance Task_eq_dec : EqDecision Task.
Proof. solve_decision. Defined.

(** *** The reducers on values *)

(** [TodoListEnhanced.tsx] *)
Inductive OptimisticAction : Type :=
| add (todo : Todo)
| toggle (id : string)
| remove (id : string).

#[global] Instance OptimisticAction_eq_dec : EqDecision OptimisticAction.
Proof. solve_decision. Defined.

(** [{ ...todo, completed: !todo.completed }] *)
Definition todo_toggled (todo : Todo) : Todo :=
  mkTodo (todo_id todo) (todo_text todo) (negb (todo_completed todo))
    (todo_createdAt todo).

(** The reducer passed to [useOptimistic] in [TodoListEnhanced]. *)
Definition todo_reducer (state : list Todo) (action : OptimisticAction)
  : list Todo :=
  match action with
  | add todo => todo :: state
  | toggle id =>
      map (λ todo, if decide (todo_id todo = id) then todo_toggled todo
                   else todo) state
  | remove id => filter (λ todo, todo_id todo ≠ id) state
  end.

(** [optimisticTodos]: the reducer applied to the confirmed [todos] for each
    pending action in the order the actions were issued. *)
Definition optimisticTodos (todos : list Todo) (pending : list OptimisticAction)
  : list Todo :=
  fold_left todo_reducer pending todos.

(** [TaskList.tsx]: [{ type: 'toggle' | 'delete'; task?: Task; id?: string }] *)
Inductive TaskActionType : Type := task_toggle | task_delete.

Record TaskAction : Type := mkTaskAction {
  action_type : TaskActionType;
  action_task : option Task;
  action_id : option string
}.

(** [{ ...t, completed: !t.completed }] *)
Definition task_toggled (t : Task) : Task :=
  mkTask (task_id t) (task_title t) (task_description t)
    (negb (task_completed t)) (task_priority t) (task_createdAt t)
    (task_updatedAt t).

(** The reducer passed to [useOptimistic] in [TaskList].  [action.task?.id]
    and [action.id] are [undefined] when the field is absent, and no [t.id]
    is [undefined]. *)
Definition task_reducer (state : list Task) (action : TaskAction)
  : list Task :=
  match action_type action with
  | task_toggle =>
      map (λ t, if decide (Some (task_id t) = task_id <$> action_task action)
                then task_toggled t else t) state
  | task_delete =>
      filter (λ t, Some (task_id t) ≠ action_id action) state
  end.

Definition optimisticTasks (tasks : list Task) (pending : list TaskAction)
  : list Task :=
  fold_left task_reducer pending tasks.

(** The confirmed list of [TodoListEnhanced] ([todos]) and the optimistic
    actions of the transitions that are still running, which [useOptimistic]
    replays over it on every render. *)
Record TodoListState : Type := mkState {
  todos : list Todo;
  pending : list OptimisticAction
}.

Definition rendered (st : TodoListState) : list Todo :=
  optimisticTodos (todos st) (pending st).

(** [handleAddTodo], up to the [await]: [addOptimisticUpdate({type: 'add', todo})]. *)
Definition handleAddTodo_optimistic (optimisticTodo : Todo) (st : TodoListState)
  : TodoListState :=
  mkState (todos st) (pending st ++ [add optimisticTodo]).

(** [handleAddTodo], once [addTodoAction] has resolved with [newTodo]:
    [setTodos(prev => [newTodo, ...prev])]; the transition ends, and with it
    the optimistic action it issued leaves the queue. *)
Definition handleAddTodo_commit (optimisticTodo newTodo : Todo)
    (st : TodoListState) : TodoListState :=
  mkState (newTodo :: todos st)
    (filter (λ a, a ≠ add optimisticTodo) (pending st)).

(** [handleAddTodo], when [addTodoAction] has rejected: the [catch] logs and
    [todos] is not set; the optimistic action leaves the queue with the
    transition. *)
Definition handleAddTodo_failed (optimisticTodo : Todo) (st : TodoListState)
  : TodoListState :=
  mkState (todos st) (filter (λ a, a ≠ add optimisticTodo) (pending st)).

(** *** The reducers on objects in memory

    The lists the reducers receive are arrays of object references.  The
    array methods and the spread syntax the reducers use are modelled on a
    store of objects and arrays, so that what they change in memory can be
    stated. *)

Section Memory.
Context {T : Type}.

Record heap : Type := Heap {
  objects : list T;
  arrays : list (list nat)
}.

(** The value of the array behind [a]: the objects its elements refer to. *)
Definition elements (h : heap) (a : nat) : list T :=
  omap (λ r, objects h !! r) (default [] (arrays h !! a)).

(** The objects a list of references refers to. *)
Definition refs_value (h : heap) (rs : list nat) : list T :=
  omap (λ r, objects h !! r) rs.

Definition alloc_object (x : T) (h : heap) : nat * heap :=
  (length (objects h), Heap (objects h ++ [x]) (arrays h)).

Definition alloc_array (l : list nat) (h : heap) : nat * heap :=
  (length (arrays h), Heap (objects h) (arrays h ++ [l])).

(** The elements of [state.map(x => cond ? {...} : x)]: [f x] is the new
    object of the first branch, [None] stands for the second branch. *)
Fixpoint map_refs (f : T -> option T) (rs : list nat) (h : heap)
  : list nat * heap :=
  match rs with
  | [] => ([], h)
  | r :: rs' =>
      let '(r1, h1) := match objects h !! r ≫= f with
                       | Some x => alloc_object x h
                       | None => (r, h)
                       end in
      let '(rs1, h2) := map_refs f rs' h1 in
      (r1 :: rs1, h2)
  end.

(** [state.map(x => cond ? {...} : x)] *)
Definition js_map (f : T -> option T) (a : nat) (h : heap) : nat * heap :=
  let '(rs, h1) := map_refs f (default [] (arrays h !! a)) h in
  alloc_array rs h1.

(** [state.filter(x => P x)] *)
Definition js_filter (P : T -> Prop) `{!forall x, Decision (P x)}
    (a : nat) (h : heap) : nat * heap :=
  alloc_array
    (filter (λ r, from_option (λ x, bool_decide (P x)) false (objects h !! r))
       (default [] (arrays h !! a))) h.

(** [[x, ...state]] *)
Definition js_cons (r : nat) (a : nat) (h : heap) : nat * heap :=
  alloc_array (r :: default [] (arrays h !! a)) h.

(** Every element of every array refers to an object. *)
Definition heap_wf (h : heap) : Prop :=
  Forall (Forall (λ r, r < length (objects h))) (arrays h).

(** [h'] has everything [h] has, unchanged, and maybe new objects and new
    arrays after it. *)
Definition heap_extends (h h' : heap) : Prop :=
  (exists os, objects h' = objects h ++ os) /\
  (exists ars, arrays h' = arrays h ++ ars).

End Memory.
Arguments heap : clear implicits.

(** The actions in memory: [action.todo] and [action.task] are references. *)
Inductive OptimisticActionRef : Type :=
| add_ref (todo : nat)
| toggle_ref (id : string)
| remove_ref (id : string).

Definition todo_reducer_mem (state : nat) (action : OptimisticActionRef)
    (h : heap Todo) : nat * heap Todo :=
  match action with
  | add_ref todo => js_cons todo state h
  | toggle_ref id =>
      js_map (λ todo, if decide (todo_id todo = id)
                      then Some (todo_toggled todo) else None) state h
  | remove_ref id => js_filter (λ todo, todo_id todo ≠ id) state h
  end.

Fixpoint optimisticTodos_mem (todos : nat) (pending : list OptimisticActionRef)
    (h : heap Todo) : nat * heap Todo :=
  match pending with
  | [] => (todos, h)
  | action :: rest =>
      let '(state, h1) := todo_reducer_mem todos action h in
      optimisticTodos_mem state rest h1
  end.

Record TaskActionRef : Type := mkTaskActionRef {
  ref_type : TaskActionType;
  ref_task : option nat;
  ref_id : option string
}.

Definition task_reducer_mem (state : nat) (action : TaskActionRef)
    (h : heap Task) : nat * heap Task :=
  match ref_type action with
  | task_toggle =>
      js_map (λ t, if decide (Some (task_id t) =
                        task_id <$> (ref_task action ≫= λ r, objects h !! r))
                   then Some (task_toggled t) else None) state h
  | task_delete =>
      js_filter (λ t, Some (task_id t) ≠ ref_id action) state h
  end.

Fixpoint optimisticTasks_mem (tasks : nat) (pending : list TaskActionRef)
    (h : heap Task) : nat * heap Task :=
  match pending with
  | [] => (tasks, h)
  | action :: rest =>
      let '(state, h1) := task_reducer_mem tasks action h in
      optimisticTasks_mem state rest h1
  end.

(** An action in memory and the action it stands for. *)
Definition todo_action_value (h : heap Todo) (a : OptimisticActionRef)
  : option OptimisticAction :=
  match a with
  | add_ref r => add <$> objects h !! r
  | toggle_ref id => Some (toggle id)
  | remove_ref id => Some (remove id)
  end.

Definition task_action_value (h : heap Task) (a : TaskActionRef)
  : option TaskAction :=
  match ref_task a with
  | None => Some (mkTaskAction (ref_type a) None (ref_id a))
  | Some r =>
      (λ t, mkTaskAction (ref_type a) (Some t) (ref_id a)) <$> objects h !! r
  end.

(** The ids the pending [add] actions bring in. *)
Definition add_ids (pending : list OptimisticAction) : list string :=
  omap (λ a, match a with add todo => Some (todo_id todo) | _ => None end)
    pending.

(** The id a [TaskList] action compares the items with. *)
Definition task_target (action : TaskAction) : option string :=
  match action_type action with
  | task_toggle => task_id <$> action_task action
  | task_delete => action_id action
  end.

(** *** Facts about the memory model *)

Section MemoryFacts.
Context {T : Type}.
Implicit Types (h : heap T) (rs : list nat).


Lemma heap_extends_refl h : heap_extends h h.
Proof. split; exists []; by rewrite app_nil_r. Qed.

Lemma heap_extends_trans h1 h2 h3 :
  heap_extends h1 h2 -> heap_extends h2 h3 -> heap_extends h1 h3.
Proof.
  intros [[o1 Ho1] [a1 Ha1]] [[o2 Ho2] [a2 Ha2]]. split.
  - exists (o1 ++ o2). by rewrite Ho2, Ho1, app_assoc.
  - exists (a1 ++ a2). by rewrite Ha2, Ha1, app_assoc.
Qed.

Lemma heap_extends_object h h' r x :
  heap_extends h h' -> objects h !! r = Some x -> objects h' !! r = Some x.
Proof. intros [[os ->] _] H. by apply lookup_app_l_Some. Qed.

Lemma heap_extends_array h h' a l :
  heap_extends h h' -> arrays h !! a = Some l -> arrays h' !! a = Some l.
Proof. intros [_ [ars ->]] H. by apply lookup_app_l_Some. Qed.

Lemma heap_extends_length h h' :
  heap_extends h h' -> length (objects h) <= length (objects h').
Proof. intros [[os ->] _]. rewrite length_app. lia. Qed.

Lemma refs_value_extends h h' rs :
  heap_extends h h' -> Forall (λ r, r < length (objects h)) rs ->
  refs_value h' rs = refs_value h rs.
Proof.
  intros [[os Hos] _] Hrs. unfold refs_value. rewrite Hos.
  induction Hrs as [|r rs Hr _ IH]; [done|].
  simpl. rewrite lookup_app_l by done.
  destruct (objects h !! r); [f_equal|]; exact IH.
Qed.

Lemma elements_extends h h' a :
  heap_wf h -> heap_extends h h' -> a < length (arrays h) ->
  elements h' a = elements h a.
Proof.
  intros Hwf Hext Ha. unfold elements.
  destruct (lookup_lt_is_Some_2 _ _ Ha) as [l Hl].
  rewrite Hl, (heap_extends_array _ _ _ _ Hext Hl). simpl.
  apply (refs_value_extends _ _ _ Hext).
  by eapply Forall_lookup_1 in Hwf.
Qed.

Lemma heap_wf_array h a :
  heap_wf h -> Forall (λ r, r < length (objects h)) (default [] (arrays h !! a)).
Proof.
  intros Hwf. destruct (arrays h !! a) as [l|] eqn:Hl; simpl; [|done].
  by eapply Forall_lookup_1 in Hwf.
Qed.

Lemma alloc_array_spec l h :
  heap_wf h -> Forall (λ r, r < length (objects h)) l ->
  let r := alloc_array l h in
  heap_extends h r.2 /\ heap_wf r.2 /\ r.1 < length (arrays r.2) /\
  objects r.2 = objects h /\ elements r.2 r.1 = refs_value h l.
Proof.
  intros Hwf Hl. simpl. repeat split.
  - exists []. by rewrite app_nil_r.
  - by eexists.
  - unfold heap_wf. simpl. apply Forall_app. split; [done|]. by constructor.
  - rewrite length_app. simpl. lia.
  - unfold elements. simpl. by rewrite list_lookup_middle.
Qed.

Lemma map_refs_spec f rs : forall h,
  Forall (λ r, r < length (objects h)) rs ->
  let r := map_refs f rs h in
  heap_extends h r.2 /\ arrays r.2 = arrays h /\
  Forall (λ r', r' < length (objects r.2)) r.1 /\
  refs_value r.2 r.1 = map (λ x, default x (f x)) (refs_value h rs).
Proof.
  induction rs as [|r rs IH]; intros h Hrs.
  - simpl. split; [apply heap_extends_refl|]. done.
  - apply Forall_cons in Hrs as [Hr Hrs].
    destruct (lookup_lt_is_Some_2 _ _ Hr) as [x Hx].
    cbn [map_refs]. rewrite Hx. cbn [mbind option_bind].
    set (p := match f x with
              | Some y => alloc_object y h
              | None => (r, h)
              end).
    assert (Hp : heap_extends h p.2 /\ arrays p.2 = arrays h /\
                 objects p.2 !! p.1 = Some (default x (f x))).
    { unfold p. destruct (f x) as [y|]; simpl.
      - split; [|split; [done|by apply list_lookup_middle]].
        split; [by eexists | exists []; by rewrite app_nil_r].
      - split; [apply heap_extends_refl|done]. }
    destruct p as [r1 h1]. simpl in Hp. destruct Hp as (Hext1 & Harr1 & Hr1).
    assert (Hrs1 : Forall (λ r', r' < length (objects h1)) rs).
    { eapply Forall_impl; [exact Hrs|]. intros r' Hr'. simpl in Hr'.
      apply heap_extends_length in Hext1. lia. }
    specialize (IH h1 Hrs1). destruct (map_refs f rs h1) as [rs1 h2].
    simpl in *. destruct IH as (Hext2 & Harr2 & Hval2 & Hel2).
    split; [by eapply heap_extends_trans|]. split; [congruence|]. split.
    + constructor; [|done].
      eapply lookup_lt_Some, heap_extends_object; [exact Hext2 | exact Hr1].
    + unfold refs_value in *. simpl.
      rewrite (heap_extends_object _ _ _ _ Hext2 Hr1), Hx. simpl.
      rewrite Hel2.
      fold (refs_value h1 rs). fold (refs_value h rs).
      by rewrite (refs_value_extends _ _ _ Hext1 Hrs).
Qed.

Lemma js_map_spec f a h :
  heap_wf h ->
  let r := js_map f a h in
  heap_extends h r.2 /\ heap_wf r.2 /\ r.1 < length (arrays r.2) /\
  elements r.2 r.1 = map (λ x, default x (f x)) (elements h a).
Proof.
  intros Hwf. unfold js_map.
  pose proof (map_refs_spec f _ h (heap_wf_array h a Hwf)) as Hm.
  destruct (map_refs f (default [] (arrays h !! a)) h) as [rs h1].
  simpl in Hm. destruct Hm as (Hext & Harr & Hrs & Hval).
  assert (Hwf1 : heap_wf h1).
  { unfold heap_wf in *. rewrite Harr. eapply Forall_impl; [exact Hwf|].
    intros l Hl. eapply Forall_impl; [exact Hl|]. intros r' Hr'. simpl in Hr'.
    apply heap_extends_length in Hext. lia. }
  destruct (alloc_array_spec rs h1 Hwf1 Hrs) as (He & Hw & Hlt & _ & Hel).
  split; [by eapply heap_extends_trans|]. split; [done|]. split; [done|].
  by rewrite Hel, Hval.
Qed.

Lemma refs_value_cons h r rs x :
  objects h !! r = Some x -> refs_value h (r :: rs) = x :: refs_value h rs.
Proof. intros Hx. unfold refs_value. simpl. by rewrite Hx. Qed.

Lemma refs_value_filter (P : T -> Prop) `{!forall x, Decision (P x)} h rs :
  Forall (λ r, r < length (objects h)) rs ->
  refs_value h
    (filter (λ r, from_option (λ x, bool_decide (P x)) false (objects h !! r)) rs)
  = filter P (refs_value h rs).
Proof.
  induction 1 as [|r rs Hr _ IH]; [done|].
  destruct (lookup_lt_is_Some_2 _ _ Hr) as [x Hx].
  rewrite filter_cons, (refs_value_cons _ _ _ _ Hx), filter_cons, Hx. simpl.
  destruct (decide (P x)) as [HP|HP].
  - rewrite (bool_decide_eq_true_2 _ HP). simpl. by rewrite Hx, IH.
  - rewrite (bool_decide_eq_false_2 _ HP). simpl. exact IH.
Qed.

Lemma js_filter_spec (P : T -> Prop) `{!forall x, Decision (P x)} a h :
  heap_wf h ->
  let r := js_filter P a h in
  heap_extends h r.2 /\ heap_wf r.2 /\ r.1 < length (arrays r.2) /\
  elements r.2 r.1 = filter P (elements h a).
Proof.
  intros Hwf. unfold js_filter.
  pose proof (heap_wf_array h a Hwf) as Ha.
  edestruct (alloc_array_spec
    (filter (λ r, from_option (λ x, bool_decide (P x)) false (objects h !! r))
       (default [] (arrays h !! a))) h Hwf) as (He & Hw & Hlt & _ & Hel).
  { apply Forall_forall. intros r [_ Hin]%list_elem_of_filter.
    rewrite Forall_forall in Ha. by apply Ha. }
  split; [done|]. split; [done|]. split; [done|].
  rewrite Hel. by apply refs_value_filter.
Qed.

Lemma js_cons_spec r x a h :
  heap_wf h -> objects h !! r = Some x ->
  let p := js_cons r a h in
  heap_extends h p.2 /\ heap_wf p.2 /\ p.1 < length (arrays p.2) /\
  elements p.2 p.1 = x :: elements h a.
Proof.
  intros Hwf Hx. unfold js_cons.
  edestruct (alloc_array_spec (r :: default [] (arrays h !! a)) h Hwf)
    as (He & Hw & Hlt & _ & Hel).
  { constructor; [by eapply lookup_lt_Some | by apply heap_wf_array]. }
  split; [done|]. split; [done|]. split; [done|].
  rewrite Hel. unfold refs_value. simpl. by rewrite Hx.
Qed.

End MemoryFacts.

(** *** The reducers in memory compute the reducers on values *)

Lemma todo_action_value_extends h h' action v :
  heap_extends h h' ->
  todo_action_value h action = Some v -> todo_action_value h' action = Some v.
Proof.
  intros Hext. destruct action as [r|id|id]; simpl; [|done..].
  destruct (objects h !! r) as [x|] eqn:Hx; [|done].
  by rewrite (heap_extends_object _ _ _ _ Hext Hx).
Qed.

Lemma task_action_value_extends h h' action v :
  heap_extends h h' ->
  task_action_value h action = Some v -> task_action_value h' action = Some v.
Proof.
  intros Hext. unfold task_action_value.
  destruct (ref_task action) as [r|]; [|done].
  destruct (objects h !! r) as [x|] eqn:Hx; [|done].
  by rewrite (heap_extends_object _ _ _ _ Hext Hx).
Qed.

Lemma todo_reducer_mem_spec state action v h :
  heap_wf h -> todo_action_value h action = Some v ->
  let p := todo_reducer_mem state action h in
  heap_extends h p.2 /\ heap_wf p.2 /\
  elements p.2 p.1 = todo_reducer (elements h state) v.
Proof.
  intros Hwf Hv. destruct action as [r|id|id]; simpl in Hv.
  - destruct (objects h !! r) as [x|] eqn:Hx; [|done].
    inversion Hv; subst.
    destruct (js_cons_spec r x state h Hwf Hx) as (He & Hw & _ & Hel). done.
  - inversion Hv; subst.
    destruct (js_map_spec
      (λ todo, if decide (todo_id todo = id) then Some (todo_toggled todo)
               else None) state h Hwf) as (He & Hw & _ & Hel).
    split; [done|]. split; [done|].
    cbn [todo_reducer_mem todo_reducer]. rewrite Hel.
    apply map_ext. intros todo. by destruct (decide (todo_id todo = id)).
  - inversion Hv; subst.
    destruct (js_filter_spec (λ todo, todo_id todo ≠ id) state h Hwf)
      as (He & Hw & _ & Hel). done.
Qed.

Lemma task_reducer_mem_spec state action v h :
  heap_wf h -> task_action_value h action = Some v ->
  let p := task_reducer_mem state action h in
  heap_extends h p.2 /\ heap_wf p.2 /\
  elements p.2 p.1 = task_reducer (elements h state) v.
Proof.
  intros Hwf Hv. unfold task_reducer_mem, task_reducer.
  assert (Hty : action_type v = ref_type action /\
                action_id v = ref_id action /\
                action_task v = ref_task action ≫= λ r, objects h !! r).
  { unfold task_action_value in Hv. destruct (ref_task action) as [r|]; simpl.
    - destruct (objects h !! r) as [x|]; inversion Hv; subst. done.
    - inversion Hv; subst. done. }
  destruct Hty as (-> & -> & ->).
  destruct (ref_type action).
  - destruct (js_map_spec
      (λ t, if decide (Some (task_id t) =
                task_id <$> (ref_task action ≫= λ r, objects h !! r))
            then Some (task_toggled t) else None) state h Hwf)
      as (He & Hw & _ & Hel).
    split; [done|]. split; [done|]. rewrite Hel.
    apply map_ext. intros t. by destruct (decide _).
  - destruct (js_filter_spec (λ t, Some (task_id t) ≠ ref_id action) state h Hwf)
      as (He & Hw & _ & Hel). done.
Qed.

Lemma optimisticTodos_mem_spec pending vs : forall todos h,
  heap_wf h ->
  Forall2 (λ a v, todo_action_value h a = Some v) pending vs ->
  let p := optimisticTodos_mem todos pending h in
  heap_extends h p.2 /\ heap_wf p.2 /\
  elements p.2 p.1 = optimisticTodos (elements h todos) vs.
Proof.
  revert vs. induction pending as [|action rest IH]; intros vs todos h Hwf Hvs.
  - inversion Hvs; subst. simpl. split; [apply heap_extends_refl|done].
  - inversion Hvs as [|? v ? vs' Hv Hrest]; subst.
    cbn [optimisticTodos_mem].
    pose proof (todo_reducer_mem_spec todos action v h Hwf Hv) as Hstep.
    destruct (todo_reducer_mem todos action h) as [state h1].
    simpl in Hstep. destruct Hstep as (He1 & Hw1 & Hel1).
    destruct (IH vs' state h1 Hw1) as (He2 & Hw2 & Hel2).
    { eapply Forall2_impl; [exact Hrest|]. intros a w.
      by apply todo_action_value_extends. }
    split; [by eapply heap_extends_trans|]. split; [done|].
    rewrite Hel2, Hel1. done.
Qed.

Lemma optimisticTasks_mem_spec pending vs : forall tasks h,
  heap_wf h ->
  Forall2 (λ a v, task_action_value h a = Some v) pending vs ->
  let p := optimisticTasks_mem tasks pending h in
  heap_extends h p.2 /\ heap_wf p.2 /\
  elements p.2 p.1 = optimisticTasks (elements h tasks) vs.
Proof.
  revert vs. induction pending as [|action rest IH]; intros vs tasks h Hwf Hvs.
  - inversion Hvs; subst. simpl. split; [apply heap_extends_refl|done].
  - inversion Hvs as [|? v ? vs' Hv Hrest]; subst.
    cbn [optimisticTasks_mem].
    pose proof (task_reducer_mem_spec tasks action v h Hwf Hv) as Hstep.
    destruct (task_reducer_mem tasks action h) as [state h1].
    simpl in Hstep. destruct Hstep as (He1 & Hw1 & Hel1).
    destruct (IH vs' state h1 Hw1) as (He2 & Hw2 & Hel2).
    { eapply Forall2_impl; [exact Hrest|]. intros a w.
      by apply task_action_value_extends. }
    split; [by eapply heap_extends_trans|]. split; [done|].
    rewrite Hel2, Hel1. done.
Qed.

(** *** The properties of the specification *)

(** C6.  Computing the optimistic list is pure.  Run on the lists and
    objects in memory, both reducers, folded over the pending actions, leave
    every object and every array that existed before as it was (the confirmed
    list and the items in it are not mutated: memory only grows by new
    arrays and new objects); the value of the result is the value the
    reducer on values gives for the values of the arguments; hence two runs,
    in whatever memories, on arguments with equal values give lists with
    equal values. *)
Theorem optimistic_list_pure :
  (forall (h : heap Todo) todos pending vs,
     heap_wf h -> todos < length (arrays h) ->
     Forall2 (λ a v, todo_action_value h a = Some v) pending vs ->
     let r := optimisticTodos_mem todos pending h in
     heap_extends h r.2 /\
     elements r.2 todos = elements h todos /\
     elements r.2 r.1 = optimisticTodos (elements h todos) vs) /\
  (forall (h1 h2 : heap Todo) todos1 todos2 pending1 pending2 vs,
     heap_wf h1 -> heap_wf h2 ->
     Forall2 (λ a v, todo_action_value h1 a = Some v) pending1 vs ->
     Forall2 (λ a v, todo_action_value h2 a = Some v) pending2 vs ->
     elements h1 todos1 = elements h2 todos2 ->
     let r1 := optimisticTodos_mem todos1 pending1 h1 in
     let r2 := optimisticTodos_mem todos2 pending2 h2 in
     elements r1.2 r1.1 = elements r2.2 r2.1) /\
  (forall (h : heap Task) tasks pending vs,
     heap_wf h -> tasks < length (arrays h) ->
     Forall2 (λ a v, task_action_value h a = Some v) pending vs ->
     let r := optimisticTasks_mem tasks pending h in
     heap_extends h r.2 /\
     elements r.2 tasks = elements h tasks /\
     elements r.2 r.1 = optimisticTasks (elements h tasks) vs) /\
  (forall (h1 h2 : heap Task) tasks1 tasks2 pending1 pending2 vs,
     heap_wf h1 -> heap_wf h2 ->
     Forall2 (λ a v, task_action_value h1 a = Some v) pending1 vs ->
     Forall2 (λ a v, task_action_value h2 a = Some v) pending2 vs ->
     elements h1 tasks1 = elements h2 tasks2 ->
     let r1 := optimisticTasks_mem tasks1 pending1 h1 in
     let r2 := optimisticTasks_mem tasks2 pending2 h2 in
     elements r1.2 r1.1 = elements r2.2 r2.1).
Proof.
  split; [|split; [|split]].
  - intros h todos pending vs Hwf Hlt Hvs r.
    destruct (optimisticTodos_mem_spec pending vs todos h Hwf Hvs)
      as (He & Hw & Hel). fold r in He, Hw, Hel.
    split; [done|]. split; [by apply elements_extends | done].
  - intros h1 h2 todos1 todos2 pending1 pending2 vs Hwf1 Hwf2 Hvs1 Hvs2 Heq r1 r2.
    destruct (optimisticTodos_mem_spec pending1 vs todos1 h1 Hwf1 Hvs1)
      as (_ & _ & Hel1).
    destruct (optimisticTodos_mem_spec pending2 vs todos2 h2 Hwf2 Hvs2)
      as (_ & _ & Hel2).
    fold r1 in Hel1. fold r2 in Hel2. by rewrite Hel1, Hel2, Heq.
  - intros h tasks pending vs Hwf Hlt Hvs r.
    destruct (optimisticTasks_mem_spec pending vs tasks h Hwf Hvs)
      as (He & Hw & Hel). fold r in He, Hw, Hel.
    split; [done|]. split; [by apply elements_extends | done].
  - intros h1 h2 tasks1 tasks2 pending1 pending2 vs Hwf1 Hwf2 Hvs1 Hvs2 Heq r1 r2.
    destruct (optimisticTasks_mem_spec pending1 vs tasks1 h1 Hwf1 Hvs1)
      as (_ & _ & Hel1).
    destruct (optimisticTasks_mem_spec pending2 vs tasks2 h2 Hwf2 Hvs2)
      as (_ & _ & Hel2).
    fold r1 in Hel1. fold r2 in Hel2. by rewrite Hel1, Hel2, Heq.
Qed.

Lemma todo_reducer_absent state id action :
  action = toggle id \/ action = remove id ->
  id ∉ map todo_id state -> todo_reducer state action = state.
Proof.
  intros Ha Hid. induction state as [|todo state IH]; [by destruct Ha as [->| ->]|].
  simpl in Hid. apply not_elem_of_cons in Hid as [Hne Hid].
  specialize (IH Hid). destruct Ha as [->| ->]; simpl in *.
  - rewrite IH. destruct (decide (todo_id todo = id)); [|done]. by destruct Hne.
  - rewrite filter_cons. destruct (decide (todo_id todo ≠ id)) as [|Hd].
    + by rewrite IH.
    + destruct Hd. intros E. by destruct Hne.
Qed.

Lemma todo_reducer_ids state action id :
  id ∈ map todo_id (todo_reducer state action) ->
  id ∈ map todo_id state \/ id ∈ add_ids [action].
Proof.
  destruct action as [todo|id'|id']; simpl.
  - intros [->|H]%elem_of_cons; [right; by left | by left].
  - intros H. left. rewrite map_map in H.
    erewrite map_ext in H; [exact H|].
    intros t. by destruct (decide (todo_id t = id')).
  - intros [t [-> [_ Hin]%list_elem_of_filter]]%list_elem_of_fmap. left.
    apply list_elem_of_fmap. eauto.
Qed.

Lemma optimisticTodos_ids pending : forall state id,
  id ∈ map todo_id (optimisticTodos state pending) ->
  id ∈ map todo_id state \/ id ∈ add_ids pending.
Proof.
  induction pending as [|action rest IH]; intros state id H; [by left|].
  apply IH in H as [H|H].
  - apply todo_reducer_ids in H as [H|H]; [by left|]. right.
    change (action :: rest) with ([action] ++ rest).
    unfold add_ids in *. rewrite omap_app. set_solver.
  - right. change (action :: rest) with ([action] ++ rest).
    unfold add_ids in *. rewrite omap_app. set_solver.
Qed.

Lemma task_reducer_absent state action :
  Forall (λ t, Some (task_id t) ≠ task_target action) state ->
  task_reducer state action = state.
Proof.
  unfold task_reducer, task_target. intros H.
  induction H as [|t state Ht _ IH]; [by destruct (action_type action)|].
  destruct (action_type action); simpl in *.
  - rewrite IH. by destruct (decide _).
  - rewrite filter_cons. destruct (decide _); [|done]. by rewrite IH.
Qed.

Lemma task_reducer_ids state action t :
  t ∈ task_reducer state action -> exists t0, t0 ∈ state /\ task_id t0 = task_id t.
Proof.
  unfold task_reducer. destruct (action_type action).
  - intros [t0 [-> Hin]]%list_elem_of_fmap. exists t0. split; [done|].
    by destruct (decide _).
  - intros [_ Hin]%list_elem_of_filter. eauto.
Qed.

Lemma optimisticTasks_ids pending : forall state t,
  t ∈ optimisticTasks state pending ->
  exists t0, t0 ∈ state /\ task_id t0 = task_id t.
Proof.
  induction pending as [|action rest IH]; intros state t H; [eauto|].
  apply IH in H as (t1 & H1 & E1).
  apply task_reducer_ids in H1 as (t0 & H0 & E0). exists t0. split; [done|].
  congruence.
Qed.

(** C7.  A pending [toggle] or [remove] whose id is the id of no confirmed
    item and of no pending [add] changes nothing: with or without it in the
    queue the optimistic list is the same, and no item with that id
    appears in it.  The same holds in [TaskList] for a [toggle] or [delete]
    whose id is the id of no confirmed task.  The reducers have a result
    for every input: they cannot throw. *)
Theorem absent_target_is_noop :
  (forall confirmed p1 p2 id action,
     action = toggle id \/ action = remove id ->
     id ∉ map todo_id confirmed -> id ∉ add_ids (p1 ++ p2) ->
     optimisticTodos confirmed (p1 ++ action :: p2) =
       optimisticTodos confirmed (p1 ++ p2) /\
     id ∉ map todo_id (optimisticTodos confirmed (p1 ++ action :: p2))) /\
  (forall confirmed p1 p2 action,
     Forall (λ t, Some (task_id t) ≠ task_target action) confirmed ->
     optimisticTasks confirmed (p1 ++ action :: p2) =
       optimisticTasks confirmed (p1 ++ p2) /\
     Forall (λ t, Some (task_id t) ≠ task_target action)
       (optimisticTasks confirmed (p1 ++ action :: p2))).
Proof.
  split.
  - intros confirmed p1 p2 id action Ha Hc Hp.
    assert (Heq : optimisticTodos confirmed (p1 ++ action :: p2) =
                  optimisticTodos confirmed (p1 ++ p2)).
    { unfold optimisticTodos. rewrite !fold_left_app. simpl.
      rewrite (todo_reducer_absent _ id action Ha); [done|].
      intros [H|H]%(optimisticTodos_ids p1); [done|].
      apply Hp. unfold add_ids in *. rewrite omap_app.
      apply elem_of_app. by left. }
    split; [done|]. rewrite Heq.
    intros [H|H]%optimisticTodos_ids; done.
  - intros confirmed p1 p2 action Hc.
    assert (Hkeep : forall p, Forall (λ t, Some (task_id t) ≠ task_target action)
                      (optimisticTasks confirmed p)).
    { intros p. apply Forall_forall. intros t Ht.
      apply optimisticTasks_ids in Ht as (t0 & H0 & E0).
      rewrite Forall_forall in Hc. rewrite <- E0. by apply Hc. }
    assert (Heq : optimisticTasks confirmed (p1 ++ action :: p2) =
                  optimisticTasks confirmed (p1 ++ p2)).
    { unfold optimisticTasks. rewrite !fold_left_app. simpl.
      rewrite task_reducer_absent; [done|]. apply Hkeep. }
    split; [done|]. apply Hkeep.
Qed.

Lemma filter_ne_absent (a : OptimisticAction) (l : list OptimisticAction) :
  a ∉ l -> filter (λ x, x ≠ a) l = l.
Proof.
  induction l as [|x l IH]; intros Hn; [done|].
  apply not_elem_of_cons in Hn as [Hne Hn]. rewrite filter_cons.
  destruct (decide (x ≠ a)) as [|Hd]; [by rewrite IH|].
  destruct Hd. congruence.
Qed.

Lemma pending_after_settled optimisticTodo (l : list OptimisticAction) :
  add optimisticTodo ∉ l ->
  filter (λ a, a ≠ add optimisticTodo) (l ++ [add optimisticTodo]) = l.
Proof.
  intros Hn. rewrite filter_app, (filter_ne_absent _ _ Hn), filter_cons.
  destruct (decide (add optimisticTodo ≠ add optimisticTodo)); [done|].
  by rewrite filter_nil, app_nil_r.
Qed.

(** Committing puts the confirmed item in front of the confirmed list and
    leaves the other pending actions in the queue. *)
Lemma handleAddTodo_commit_spec optimisticTodo newTodo st :
  add optimisticTodo ∉ pending st ->
  handleAddTodo_commit optimisticTodo newTodo
    (handleAddTodo_optimistic optimisticTodo st)
  = mkState (newTodo :: todos st) (pending st).
Proof.
  intros Hn. unfold handleAddTodo_commit, handleAddTodo_optimistic. simpl.
  by rewrite pending_after_settled.
Qed.

(** A failed [add] leaves the component as it was before the optimistic
    action. *)
Lemma handleAddTodo_failed_reverts optimisticTodo st :
  add optimisticTodo ∉ pending st ->
  handleAddTodo_failed optimisticTodo
    (handleAddTodo_optimistic optimisticTodo st) = st.
Proof.
  intros Hn. unfold handleAddTodo_failed, handleAddTodo_optimistic. simpl.
  rewrite pending_after_settled by done. by destruct st.
Qed.

(** C8.  From an empty confirmed list, the optimistic [add] of the item
    with id ["tmp-1"] and text ["X"] renders exactly that item; once the
    confirmed item with id ["real-1"] is committed and the pending action is
    gone, the confirmed list is exactly that one item, the queue is empty,
    and the rendered list is that one item: no duplicate and nothing with
    the temporary id left. *)
Theorem add_then_commit_round_trip (t1 t2 : Z) :
  let tmp := mkTodo "tmp-1" "X" false t1 in
  let real := mkTodo "real-1" "X" false t2 in
  let st0 := mkState [] [] in
  let st1 := handleAddTodo_optimistic tmp st0 in
  let st2 := handleAddTodo_commit tmp real st1 in
  rendered st1 = [tmp] /\
  todos st1 = [] /\
  todos st2 = [real] /\
  pending st2 = [] /\
  rendered st2 = [real] /\
  "tmp-1" ∉ map todo_id (rendered st2).
Proof.
  intros tmp real st0 st1 st2.
  assert (Hp : pending st2 = []).
  { unfold st2, st1, st0, handleAddTodo_commit, handleAddTodo_optimistic.
    simpl. rewrite filter_cons.
    destruct (decide (add tmp ≠ add tmp)); [done|]. by rewrite filter_nil. }
  assert (Hr : rendered st2 = [real]).
  { unfold rendered. rewrite Hp. done. }
  repeat split; try done.
  rewrite Hr. simpl. intros [H|H]%elem_of_cons; [done|].
  by apply elem_of_nil in H.
Qed.

(** The examples of the specification. *)
Example toggle_on_nonexistent_id (t : Z) :
  optimisticTodos [mkTodo "a" "" false t] [toggle "z"] = [mkTodo "a" "" false t].
Proof. reflexivity. Qed.

Example delete_then_apply (t1 t2 : Z) :
  optimisticTodos [mkTodo "a" "" false t1; mkTodo "b" "" false t2] [remove "a"]
  = [mkTodo "b" "" false t2].
Proof. reflexivity. Qed.

Example independent_actions (t1 t2 : Z) :
  optimisticTodos [mkTodo "a" "" false t1; mkTodo "b" "" false t2]
    [toggle "a"; remove "b"] = [mkTodo "a" "" true t1] /\
  optimisticTodos [mkTodo "a" "" false t1; mkTodo "b" "" false t2]
    [remove "b"; toggle "a"] = [mkTodo "a" "" true t1].
Proof. split; reflexivity. Qed.

(** *** Concrete runs *)

Definition demo_heap : heap Todo :=
  Heap [mkTodo "a" "A" false 1; mkTodo "tmp" "B" false 2] [[0]].

Definition demo_pending : list OptimisticActionRef :=
  [add_ref 1; toggle_ref "a"; remove_ref "zz"].

Definition demo_pending_values : list OptimisticAction :=
  [add (mkTodo "tmp" "B" false 2); toggle "a"; remove "zz"].

Lemma demo_heap_wf : heap_wf demo_heap.
Proof. repeat constructor. Qed.

Lemma demo_pending_represented :
  Forall2 (λ a v, todo_action_value demo_heap a = Some v)
    demo_pending demo_pending_values.
Proof. repeat constructor. Qed.

Example demo_optimistic_mem :
  let r := optimisticTodos_mem 0 demo_pending demo_heap in
  r.1 = 3 /\
  objects r.2 = objects demo_heap ++ [mkTodo "a" "A" true 1] /\
  arrays r.2 = arrays demo_heap ++ [[1; 0]; [1; 2]; [1; 2]].
Proof. vm_compute. done. Qed.

Lemma optimistic_list_pure_witness :
  heap_wf demo_heap /\ 0 < length (arrays demo_heap) /\
  Forall2 (λ a v, todo_action_value demo_heap a = Some v)
    demo_pending demo_pending_values /\
  let r1 := optimisticTodos_mem 0 demo_pending demo_heap in
  elements r1.2 0 = elements demo_heap 0 /\
  elements r1.2 r1.1 =
    optimisticTodos (elements demo_heap 0) demo_pending_values.
Proof.
  split; [exact demo_heap_wf|].
  split; [simpl; lia|].
  split; [exact demo_pending_represented|].
  assert (Hlt : 0 < length (arrays demo_heap)) by (simpl; lia).
  destruct (proj1 optimistic_list_pure demo_heap 0 demo_pending
              demo_pending_values demo_heap_wf Hlt demo_pending_represented)
    as (_ & H1 & H2).
  split; [exact H1 | exact H2].
Defined.

Lemma absent_target_is_noop_witness :
  ("z" ∉ map todo_id [mkTodo "a" "" false 0]) /\
  ("z" ∉ add_ids ([] ++ [])) /\
  optimisticTodos [mkTodo "a" "" false 0] ([] ++ toggle "z" :: []) =
  optimisticTodos [mkTodo "a" "" false 0] ([] ++ []).
Proof.
  assert (H1 : "z" ∉ map todo_id [mkTodo "a" "" false 0]).
  { simpl. intros [H|H]%elem_of_cons; [done | by apply elem_of_nil in H]. }
  assert (H2 : "z" ∉ add_ids ([] ++ [])).
  { simpl. apply not_elem_of_nil. }
  split; [exact H1|]. split; [exact H2|].
  apply (proj1 absent_target_is_noop [mkTodo "a" "" false 0] [] [] "z"
           (toggle "z") (or_introl eq_refl) H1 H2).
Defined.


End Overlay.

(** ** The task form *)

Module TaskInput.
Import Overlay.

(** The text of a form field: a sequence of UTF-16 code units. *)
Abbreviation jsstring := (list N).

(** The code units [String.prototype.trim] strips: the ECMAScript
    [WhiteSpace] and [LineTerminator] code points. *)
Definition is_white_space (c : N) : bool :=
  ((c =? 9) || (c =? 10) || (c =? 11) || (c =? 12) || (c =? 13) ||
   (c =? 32) || (c =? 160) || (c =? 5760) ||
   ((8192 <=? c) && (c <=? 8202)) ||
   (c =? 8232) || (c =? 8233) || (c =? 8239) || (c =? 8287) ||
   (c =? 12288) || (c =? 65279))%N.

Fixpoint trim_start (s : jsstring) : jsstring :=
  match s with
  | [] => []
  | c :: s' => if is_white_space c then trim_start s' else s
  end.

(** [title.trim()] *)
Definition trim (s : jsstring) : jsstring :=
  rev (trim_start (rev (trim_start s))).

(** [interface FormState { error?: string; success?: boolean }] *)
Record FormState : Type := mkFormState {
  error : option string;
  success : option bool
}.

Inductive settled (A : Type) : Type :=
| fulfilled (v : A)
| rejected.
Arguments fulfilled {A} v.
Arguments rejected {A}.

(** What the form action does, in order: it ends with a form state, or it
    awaits [createAction(title)] and goes on with how the promise settled,
    or it calls [onTaskCreated(task)] and goes on with how the call ended. *)
Inductive steps : Type :=
| Done (st : FormState)
| AwaitCreateAction (title : jsstring) (k : settled Task -> steps)
| CallOnTaskCreated (task : Task) (k : Bus.outcome -> steps).

(** The action given to [useActionState] in [TaskInput], applied to the
    value of the field [title]. *)
Definition action (_prevState : FormState) (title : jsstring) : steps :=
  match trim title with
  | [] => Done (mkFormState (Some "Task title is required") None)
  | _ :: _ =>
      AwaitCreateAction (trim title) (λ r,
        match r with
        | fulfilled task =>
            CallOnTaskCreated task (λ o,
              match o with
              | Bus.Returned => Done (mkFormState None (Some true))
              | Bus.Threw => Done (mkFormState (Some "Failed to create task") None)
              end)
        | rejected => Done (mkFormState (Some "Failed to create task") None)
        end)
  end.

(** [TaskInput] inside [TasksFeature]: [createAction] settles as
    [createTask] tells, [onTaskCreated] is [handleTaskCreated], that is
    [setTasks(prev => [task, ...prev])].  The result is the form state, the
    confirmed list, and the titles [createTask] was called with. *)
Fixpoint in_TasksFeature (createTask : jsstring -> settled Task)
    (tasks : list Task) (r : steps) : FormState * list Task * list jsstring :=
  match r with
  | Done st => (st, tasks, [])
  | AwaitCreateAction title k =>
      let '(st, tasks', calls) :=
        in_TasksFeature createTask tasks (k (createTask title)) in
      (st, tasks', title :: calls)
  | CallOnTaskCreated task k =>
      in_TasksFeature createTask (task :: tasks) (k Bus.Returned)
  end.

(** The action of [TodoInputEnhanced], applied to the value of the field
    [todo]: it ends with a form state or awaits [onAdd(trimmedText)]. *)
Inductive steps_enhanced : Type :=
| DoneEnhanced (st : FormState)
| AwaitOnAdd (text : jsstring) (k : settled unit -> steps_enhanced).

Definition action_enhanced (_prevState : FormState) (text : jsstring)
  : steps_enhanced :=
  match trim text with
  | [] => DoneEnhanced (mkFormState (Some "Task cannot be empty") None)
  | _ :: _ =>
      AwaitOnAdd (trim text) (λ r,
        match r with
        | fulfilled _ => DoneEnhanced (mkFormState None (Some true))
        | rejected => DoneEnhanced (mkFormState (Some "Failed to add task") None)
        end)
  end.

(** A text [trim] leaves nothing of. *)
Definition blank (s : jsstring) : Prop :=
  Forall (λ c, is_white_space c = true) s.

(** Code units of a text typed in ASCII. *)
Definition of_string (s : string) : jsstring :=
  map Ascii.N_of_ascii (String.list_ascii_of_string s).

(** *** Facts *)


Lemma trim_start_nil_iff s : trim_start s = [] <-> blank s.
Proof.
  unfold blank. induction s as [|c s IH]; simpl.
  - split; [constructor | done].
  - destruct (is_white_space c) eqn:Hc.
    + rewrite IH. split; [by constructor|]. by intros [_ H]%Forall_cons.
    + split; [done|]. intros [H _]%Forall_cons. congruence.
Qed.

Lemma trim_start_blank_iff s : blank (trim_start s) <-> blank s.
Proof.
  unfold blank. induction s as [|c s IH]; simpl; [done|].
  destruct (is_white_space c) eqn:Hc; [|done].
  rewrite IH. split; [by constructor|]. by intros [_ H]%Forall_cons.
Qed.

Lemma trim_nil_iff s : trim s = [] <-> blank s.
Proof.
  unfold trim.
  rewrite <- (rev_involutive []) at 1. simpl.
  split.
  - intros H. apply (f_equal (@rev N)) in H. rewrite rev_involutive in H.
    simpl in H. apply trim_start_nil_iff in H.
    apply trim_start_blank_iff. unfold blank in *.
    apply Forall_rev in H. by rewrite rev_involutive in H.
  - intros H. apply trim_start_nil_iff in H. rewrite H. done.
Qed.

(** C9.  A title that is empty or consists of white space only is refused
    at once: the action ends with the error ['Task title is required'] at
    its first step, without awaiting [createAction] and without calling
    [onTaskCreated]; in [TasksFeature] the confirmed list stays as it was
    and [createTask] is not called.  This is the only case in which the
    action ends at its first step. *)
Theorem blank_title_is_refused prev title :
  blank title ->
  action prev title = Done (mkFormState (Some "Task title is required") None) /\
  (forall createTask tasks,
     in_TasksFeature createTask tasks (action prev title) =
       (mkFormState (Some "Task title is required") None, tasks, [])) /\
  (forall prev' title' st, action prev' title' = Done st -> blank title').
Proof.
  intros Hblank. apply trim_nil_iff in Hblank.
  assert (Ha : action prev title =
               Done (mkFormState (Some "Task title is required") None)).
  { unfold action. by rewrite Hblank. }
  split; [done|]. split.
  - intros createTask tasks. by rewrite Ha.
  - intros prev' title' st. unfold action.
    destruct (trim title') eqn:Ht; [|done]. intros _. by apply trim_nil_iff.
Qed.

(** The same holds for [TodoInputEnhanced]: [onAdd], which adds the
    optimistic item, is not reached for a blank text. *)
Lemma blank_text_is_refused prev text :
  blank text ->
  action_enhanced prev text =
    DoneEnhanced (mkFormState (Some "Task cannot be empty") None).
Proof.
  intros Hblank. apply trim_nil_iff in Hblank.
  unfold action_enhanced. by rewrite Hblank.
Qed.


Example trim_example :
  trim (of_string "  buy milk ") = of_string "buy milk".
Proof. vm_compute. reflexivity. Qed.

Lemma blank_title_is_refused_witness :
  blank (of_string "   ") /\
  action (mkFormState None (Some false)) (of_string "   ") =
    Done (mkFormState (Some "Task title is required") None).
Proof.
  assert (H : blank (of_string "   ")) by (repeat constructor).
  split; [exact H|].
  apply (blank_title_is_refused (mkFormState None (Some false))
           (of_string "   ") H).
Defined.

Example valid_title_reaches_create :
  exists k, action (mkFormState None (Some false)) (of_string " a ") =
            AwaitCreateAction (of_string "a") k.
Proof. eexists. reflexivity. Qed.

(** *** What [createAction] and [onAdd] are given *)

Lemma trim_start_split s :
  exists pre, blank pre /\ s = pre ++ trim_start s /\
    forall c, head (trim_start s) = Some c -> is_white_space c = false.
Proof.
  induction s as [|c s (pre & Hpre & Hs & Hhead)]; simpl.
  - exists []. split; [constructor|]. done.
  - destruct (is_white_space c) eqn:Hc.
    + exists (c :: pre). split; [by constructor|]. split; [|done].
      simpl. by rewrite <- Hs.
    + exists []. split; [constructor|]. split; [done|].
      intros c' H. simpl in H. by inversion H; subst.
Qed.

Lemma trim_start_suffix_last s c :
  last (trim_start s) = Some c -> last s = Some c.
Proof.
  destruct (trim_start_split s) as (pre & _ & Hs & _). intros H.
  rewrite Hs. destruct (trim_start s) as [|x u] eqn:Hu; [done|].
  by rewrite last_app, H.
Qed.

Lemma head_rev_last (l : jsstring) : head (rev l) = last l.
Proof.
  induction l as [|x l _] using rev_ind; [done|].
  by rewrite rev_app_distr, last_snoc.
Qed.

Lemma last_rev_head (l : jsstring) : last (rev l) = head l.
Proof. by rewrite <- head_rev_last, rev_involutive. Qed.

Lemma trim_split s :
  exists pre post, blank pre /\ blank post /\ s = pre ++ trim s ++ post /\
    (forall c, head (trim s) = Some c -> is_white_space c = false) /\
    (forall c, last (trim s) = Some c -> is_white_space c = false).
Proof.
  destruct (trim_start_split s) as (pre & Hpre & Hs & Hhead).
  destruct (trim_start_split (rev (trim_start s))) as (post & Hpost & Hr & Hhead').
  exists pre, (rev post). unfold trim.
  split; [done|]. split; [by apply Forall_rev|]. split; [|split].
  - rewrite <- rev_app_distr, <- Hr, rev_involutive. exact Hs.
  - intros c Hc. apply Hhead.
    rewrite head_rev_last in Hc. apply trim_start_suffix_last in Hc.
    by rewrite last_rev_head in Hc.
  - intros c Hc. apply Hhead'. by rewrite last_rev_head in Hc.
Qed.

(** X15.  Whatever is typed in the field, [createAction] is called with a
    title that is not empty, neither starts nor ends with white space, and
    is the typed text without the white space around it; when nothing else
    is left of the text the action ends with the error
    ['Task title is required'] instead.  The action never calls
    [onTaskCreated] before [createAction] has resolved. *)
Theorem createAction_gets_the_trimmed_title prev title :
  match action prev title with
  | Done st =>
      st = mkFormState (Some "Task title is required") None /\ blank title
  | AwaitCreateAction t _ =>
      t = trim title /\ t ≠ [] /\
      (forall c, head t = Some c -> is_white_space c = false) /\
      (forall c, last t = Some c -> is_white_space c = false) /\
      exists pre post, blank pre /\ blank post /\ title = pre ++ t ++ post
  | CallOnTaskCreated _ _ => False
  end.
Proof.
  unfold action. destruct (trim title) as [|c t] eqn:Ht.
  - split; [done|]. by apply trim_nil_iff.
  - destruct (trim_split title) as (pre & post & Hpre & Hpost & Hs & Hh & Hl).
    rewrite Ht in Hs, Hh, Hl. split; [done|]. split; [done|].
    split; [done|]. split; [done|]. by exists pre, post.
Qed.

(** X16.  In [TasksFeature] a submitted title that is not blank leads to
    exactly one call of [createTask], with the trimmed title.  When the
    call resolves, the task is put in front of the list and the form
    reports success; when it rejects, the list is left as it was and the
    form reports ['Failed to create task']. *)
Theorem submit_in_TasksFeature createTask tasks prev title :
  ~ blank title ->
  in_TasksFeature createTask tasks (action prev title) =
  match createTask (trim title) with
  | fulfilled task =>
      (mkFormState None (Some true), task :: tasks, [trim title])
  | rejected =>
      (mkFormState (Some "Failed to create task") None, tasks, [trim title])
  end.
Proof.
  intros Hblank. unfold action.
  destruct (trim title) as [|c t] eqn:Ht.
  - destruct Hblank. by apply trim_nil_iff.
  - simpl. by destruct (createTask (c :: t)).
Qed.

Lemma submit_in_TasksFeature_witness :
  ~ blank (of_string " a ") /\
  in_TasksFeature (λ _, rejected) [] (action (mkFormState None (Some false))
    (of_string " a "))
  = (mkFormState (Some "Failed to create task") None, [], [of_string "a"]).
Proof.
  assert (H : ~ blank (of_string " a ")).
  { intros Hb. apply trim_nil_iff in Hb. by vm_compute in Hb. }
  split; [exact H|].
  exact (submit_in_TasksFeature (λ _, rejected) []
           (mkFormState None (Some false)) (of_string " a ") H).
Defined.

(** X17.  The action of [TodoInputEnhanced] refuses a blank text with
    ['Task cannot be empty'] before it reaches [onAdd], which is where the
    optimistic item is added; any other text reaches [onAdd] trimmed, and
    the form then reports success when [onAdd] resolves and
    ['Failed to add task'] when it rejects. *)
Theorem enhanced_action_outcomes prev text :
  match action_enhanced prev text with
  | DoneEnhanced st =>
      st = mkFormState (Some "Task cannot be empty") None /\ blank text
  | AwaitOnAdd t k =>
      ~ blank text /\ t = trim text /\ t ≠ [] /\
      k (fulfilled tt) = DoneEnhanced (mkFormState None (Some true)) /\
      k rejected = DoneEnhanced (mkFormState (Some "Failed to add task") None)
  end.
Proof.
  unfold action_enhanced. destruct (trim text) as [|c t] eqn:Ht.
  - split; [done|]. by apply trim_nil_iff.
  - split; [|done]. intros Hb. apply trim_nil_iff in Hb. congruence.
Qed.

End TaskInput.

(** ** The todo lists: handlers, filters and counts *)

Module Todos.
Import Overlay.

(** [src/types/todo.ts] *)
Inductive TodoFilter : Type := all | active | completed.

(** [src/actions/todoActions.ts].  [uuid] is what [crypto.randomUUID()]
    returned and [now] what [Date.now()] returned. *)
Definition addTodoAction (uuid : string) (now : Z) (text : string) : Todo :=
  mkTodo uuid text false now.

Definition toggleTodoAction (todo : Todo) : Todo :=
  mkTodo (todo_id todo) (todo_text todo) (negb (todo_completed todo))
    (todo_createdAt todo).

Definition removeTodoAction (id : string) : string := id.

(** [TodoListEnhanced.handleAddTodo]: the item shown while the action runs.
    [stamp] is the text of [Date.now()] in the template literal. *)
Definition optimisticTodo (stamp : string) (now : Z) (text : string) : Todo :=
  mkTodo (String.append "temp-" stamp) text false now.

(** The functions given to [setTodos] by [handleAddTodo], [handleToggleTodo]
    and [handleRemoveTodo] once their action has resolved. *)
Definition setTodos_add (newTodo : Todo) (prev : list Todo) : list Todo :=
  newTodo :: prev.

Definition setTodos_toggle (updatedTodo : Todo) (prev : list Todo) : list Todo :=
  map (λ t, if decide (todo_id t = todo_id updatedTodo) then updatedTodo else t)
    prev.

Definition setTodos_remove (id : string) (prev : list Todo) : list Todo :=
  filter (λ t, todo_id t ≠ id) prev.

(** [filteredTodos], [activeCount] and [completedCount] of [TodoListEnhanced]
    (and, on [todos], of [TodoList]). *)
Definition shown (currentFilter : TodoFilter) (todo : Todo) : bool :=
  match currentFilter with
  | active => negb (todo_completed todo)
  | completed => todo_completed todo
  | all => true
  end.

Definition filteredTodos (currentFilter : TodoFilter) (l : list Todo)
  : list Todo :=
  filter (λ todo, shown currentFilter todo) l.

Definition activeCount (l : list Todo) : nat :=
  length (filter (λ t, negb (todo_completed t)) l).

Definition completedCount (l : list Todo) : nat :=
  length (filter (λ t, todo_completed t) l).

(** [TodoItemEnhanced]: [todo.id.startsWith('temp-')] *)
Definition isOptimistic (todo : Todo) : bool :=
  String.prefix "temp-" (todo_id todo).

(** [TodoList]: the updates [addTodo], [toggleTodo] and [removeTodo] make. *)
Definition addTodo (uuid : string) (now : Z) (text : string) (prev : list Todo)
  : list Todo :=
  mkTodo uuid text false now :: prev.

Definition toggleTodo (id : string) (prev : list Todo) : list Todo :=
  map (λ todo, if decide (todo_id todo = id)
               then mkTodo (todo_id todo) (todo_text todo)
                      (negb (todo_completed todo)) (todo_createdAt todo)
               else todo) prev.

Definition removeTodo (id : string) (prev : list Todo) : list Todo :=
  filter (λ todo, todo_id todo ≠ id) prev.

(** *** Facts *)

Lemma todo_toggled_involutive todo : todo_toggled (todo_toggled todo) = todo.
Proof. destruct todo as [i x c t]. unfold todo_toggled. simpl. by rewrite negb_involutive. Qed.

Lemma task_toggled_involutive t : task_toggled (task_toggled t) = t.
Proof. destruct t. unfold task_toggled. simpl. by rewrite negb_involutive. Qed.

Lemma toggleTodo_reducer id prev :
  toggleTodo id prev = todo_reducer prev (toggle id).
Proof. reflexivity. Qed.

Lemma unique_by_id (l : list Todo) x y :
  NoDup (map todo_id l) -> x ∈ l -> y ∈ l -> todo_id x = todo_id y -> x = y.
Proof.
  induction l as [|z l IH]; intros Hnd Hx Hy Heq; [by apply elem_of_nil in Hx|].
  simpl in Hnd. apply NoDup_cons in Hnd as [Hz Hnd].
  apply elem_of_cons in Hx as [->|Hx]; apply elem_of_cons in Hy as [->|Hy].
  - done.
  - destruct Hz. rewrite Heq. apply list_elem_of_fmap. eauto.
  - destruct Hz. rewrite <- Heq. apply list_elem_of_fmap. eauto.
  - by apply IH.
Qed.

(** X7.  The three filters and the two counts of the todo lists agree: the
    filter [all] shows the whole list, [active] and [completed] show
    disjoint parts that together are the whole list, each in the order of
    the list, and the active and completed counts add up to the length of
    the list. *)
Theorem filters_partition_the_list (l : list Todo) :
  filteredTodos all l = l /\
  filteredTodos active l ++ filteredTodos completed l ≡ₚ l /\
  filteredTodos active l `sublist_of` l /\
  filteredTodos completed l `sublist_of` l /\
  (forall t, t ∈ filteredTodos active l -> t ∉ filteredTodos completed l) /\
  activeCount l + completedCount l = length l.
Proof.
  assert (Hsplit : filter (λ t, negb (todo_completed t)) l
                     ++ filter (λ t, todo_completed t) l ≡ₚ l).
  { induction l as [|t l IH]; [done|].
    rewrite !filter_cons. destruct (todo_completed t) eqn:Hc; simpl.
    - by rewrite <- Permutation_middle, IH.
    - by rewrite IH. }
  split; [|split; [|split; [|split; [|split]]]].
  - unfold filteredTodos. clear Hsplit. induction l as [|t l IH]; [done|].
    rewrite filter_cons.
    destruct (decide (shown all t)) as [|Hn]; [by rewrite IH | by destruct Hn].
  - exact Hsplit.
  - apply sublist_filter.
  - apply sublist_filter.
  - unfold filteredTodos.
    intros t [Ha _]%list_elem_of_filter [Hc _]%list_elem_of_filter.
    unfold shown in Ha, Hc. by destruct (todo_completed t).
  - unfold activeCount, completedCount. rewrite <- length_app.
    by rewrite Hsplit.
Qed.

Lemma todo_toggled_id todo : todo_id (todo_toggled todo) = todo_id todo.
Proof. reflexivity. Qed.

Lemma toggle_twice state id :
  todo_reducer (todo_reducer state (toggle id)) (toggle id) = state.
Proof.
  simpl. rewrite map_map. rewrite <- (map_id state) at 2.
  apply map_ext. intros todo.
  destruct (decide (todo_id todo = id)) as [Heq|Hne].
  - rewrite todo_toggled_id. rewrite decide_True by done.
    apply todo_toggled_involutive.
  - by rewrite decide_False.
Qed.

Lemma task_toggle_twice state action :
  action_type action = task_toggle ->
  task_reducer (task_reducer state action) action = state.
Proof.
  intros Hty. unfold task_reducer. rewrite Hty, map_map.
  rewrite <- (map_id state) at 2. apply map_ext. intros t.
  destruct (decide (Some (task_id t) = task_id <$> action_task action))
    as [Heq|Hne].
  - change (task_id (task_toggled t)) with (task_id t).
    rewrite decide_True by done. apply task_toggled_involutive.
  - by rewrite decide_False.
Qed.

(** X8.  Two toggles of the same id cancel out: the optimistic list after
    two pending [toggle] actions for one id is the list without them,
    item for item, and so is the list of [TodoList] after two calls of
    [toggleTodo], and the optimistic task list after two [toggle] actions
    carrying the same task. *)
Theorem double_toggle_cancels :
  (forall todos pending id,
     optimisticTodos todos (pending ++ [toggle id; toggle id]) =
     optimisticTodos todos pending) /\
  (forall id prev, toggleTodo id (toggleTodo id prev) = prev) /\
  (forall tasks pending action,
     action_type action = task_toggle ->
     optimisticTasks tasks (pending ++ [action; action]) =
     optimisticTasks tasks pending).
Proof.
  split; [|split].
  - intros todos pending id. unfold optimisticTodos.
    rewrite fold_left_app. cbn [fold_left]. apply toggle_twice.
  - intros id prev. rewrite !toggleTodo_reducer. apply toggle_twice.
  - intros tasks pending action Hty. unfold optimisticTasks.
    rewrite fold_left_app. cbn [fold_left]. by apply task_toggle_twice.
Qed.

Lemma filter_map_toggle (state : list Todo) a b :
  filter (λ todo, todo_id todo ≠ b)
    (map (λ todo, if decide (todo_id todo = a) then todo_toggled todo else todo)
       state)
  = map (λ todo, if decide (todo_id todo = a) then todo_toggled todo else todo)
      (filter (λ todo, todo_id todo ≠ b) state).
Proof.
  induction state as [|t state IH]; [done|].
  simpl. rewrite !filter_cons.
  assert (Hid : todo_id (if decide (todo_id t = a) then todo_toggled t else t)
                = todo_id t) by (by destruct (decide (todo_id t = a))).
  rewrite Hid. destruct (decide (todo_id t ≠ b)); simpl; by rewrite IH.
Qed.

(** X9.  Pending actions on different items can be issued in either order:
    a [toggle] and a [remove] commute for all ids, two toggles commute, two
    removes commute, and an [add] commutes with a [toggle] or [remove] of
    another id.  An [add] and a [remove] of the added id never commute: the
    item is gone only when the [remove] was issued after the [add]. *)
Theorem independent_actions_commute (state : list Todo) :
  (forall a b, todo_reducer (todo_reducer state (toggle a)) (remove b) =
               todo_reducer (todo_reducer state (remove b)) (toggle a)) /\
  (forall a b, todo_reducer (todo_reducer state (toggle a)) (toggle b) =
               todo_reducer (todo_reducer state (toggle b)) (toggle a)) /\
  (forall a b, todo_reducer (todo_reducer state (remove a)) (remove b) =
               todo_reducer (todo_reducer state (remove b)) (remove a)) /\
  (forall todo b, todo_id todo ≠ b ->
     todo_reducer (todo_reducer state (add todo)) (toggle b) =
       todo_reducer (todo_reducer state (toggle b)) (add todo) /\
     todo_reducer (todo_reducer state (add todo)) (remove b) =
       todo_reducer (todo_reducer state (remove b)) (add todo)) /\
  (forall todo,
     todo_reducer (todo_reducer state (add todo)) (remove (todo_id todo)) ≠
     todo_reducer (todo_reducer state (remove (todo_id todo))) (add todo)).
Proof.
  split; [|split; [|split; [|split]]].
  - intros a b. simpl. apply filter_map_toggle.
  - intros a b. simpl. rewrite !map_map. apply map_ext. intros t.
    destruct (decide (todo_id t = a)) as [Ha|Ha],
             (decide (todo_id t = b)) as [Hb|Hb];
      rewrite ?todo_toggled_id;
      repeat first [rewrite decide_True by done | rewrite decide_False by done];
      done.
  - intros a b. simpl. rewrite !list_filter_filter.
    induction state as [|t state IH]; [done|].
    rewrite !filter_cons.
    destruct (decide (todo_id t ≠ b ∧ todo_id t ≠ a)) as [H1|H1],
             (decide (todo_id t ≠ a ∧ todo_id t ≠ b)) as [H2|H2];
      try (by rewrite IH); tauto.
  - intros todo b Hne. split; simpl.
    + by rewrite decide_False.
    + rewrite filter_cons. by rewrite decide_True.
  - intros todo. simpl. rewrite filter_cons.
    destruct (decide (todo_id todo ≠ todo_id todo)) as [Hd|_]; [done|].
    intros Heq.
    assert (Hin : todo ∈ filter (λ t, todo_id t ≠ todo_id todo) state).
    { rewrite Heq. by left. }
    apply list_elem_of_filter in Hin as [Hne _]. done.
Qed.

(** X10.  What the handlers of [TodoListEnhanced] commit is what the
    optimistic list showed.  For a removal the committed list is the
    optimistic list.  For a toggle of an item of the confirmed list it is
    the optimistic list when the ids of the list are distinct.  For an
    addition the committed list and the optimistic list have the same tail,
    and their first items agree in text and are both not completed; the
    optimistic one is marked as being saved. *)
Theorem commit_matches_optimistic (todos : list Todo) :
  (forall id,
     setTodos_remove (removeTodoAction id) todos = todo_reducer todos (remove id)) /\
  (forall todo,
     NoDup (map todo_id todos) -> todo ∈ todos ->
     setTodos_toggle (toggleTodoAction todo) todos =
       todo_reducer todos (toggle (todo_id todo))) /\
  (forall stamp now uuid now' text,
     let shown := todo_reducer todos (add (optimisticTodo stamp now text)) in
     let committed := setTodos_add (addTodoAction uuid now' text) todos in
     tail shown = tail committed /\
     todo_text <$> head shown = todo_text <$> head committed /\
     todo_completed <$> head shown = Some false /\
     todo_completed <$> head committed = Some false /\
     isOptimistic <$> head shown = Some true).
Proof.
  split; [|split].
  - done.
  - intros todo Hnd Hin. unfold setTodos_toggle. simpl.
    apply map_ext_in. intros t Ht. apply list_elem_of_In in Ht.
    change (todo_id (toggleTodoAction todo)) with (todo_id todo).
    destruct (decide (todo_id t = todo_id todo)) as [Heq|Hne]; [|reflexivity].
    assert (t = todo) as -> by (by eapply unique_by_id). reflexivity.
  - intros stamp now uuid now' text. repeat split; try reflexivity.
    by destruct stamp.
Qed.

(** Without distinct ids the committed list can differ from the optimistic
    one: the commit puts the same object in the place of every item with
    the id. *)
Example commit_differs_with_shared_id :
  let a := mkTodo "x" "first" false 1 in
  let b := mkTodo "x" "second" true 2 in
  setTodos_toggle (toggleTodoAction a) [a; b]
    = [mkTodo "x" "first" true 1; mkTodo "x" "first" true 1] /\
  todo_reducer [a; b] (toggle "x")
    = [mkTodo "x" "first" true 1; mkTodo "x" "second" false 2].
Proof. split; reflexivity. Qed.

Lemma counts_toggle_other (l : list Todo) id :
  id ∉ map todo_id l ->
  activeCount (toggleTodo id l) = activeCount l /\
  completedCount (toggleTodo id l) = completedCount l.
Proof.
  intros Hn. rewrite toggleTodo_reducer.
  rewrite (todo_reducer_absent l id (toggle id)); [done | by left | done].
Qed.

(** X11.  Toggling keeps the number of items, and when the ids are distinct
    it moves exactly the toggled item between the two counts: an active
    item with the id makes the active count one less and the completed
    count one more, a completed item the other way round. *)
Theorem toggle_moves_one_item (l : list Todo) todo :
  NoDup (map todo_id l) -> todo ∈ l ->
  length (toggleTodo (todo_id todo) l) = length l /\
  (todo_completed todo = false ->
     S (activeCount (toggleTodo (todo_id todo) l)) = activeCount l /\
     completedCount (toggleTodo (todo_id todo) l) = S (completedCount l)) /\
  (todo_completed todo = true ->
     activeCount (toggleTodo (todo_id todo) l) = S (activeCount l) /\
     S (completedCount (toggleTodo (todo_id todo) l)) = completedCount l).
Proof.
  intros Hnd Hin. split; [apply length_map|].
  induction l as [|t l IH]; [by apply elem_of_nil in Hin|].
  simpl in Hnd. apply NoDup_cons in Hnd as [Ht Hnd].
  unfold activeCount, completedCount in *.
  change (toggleTodo (todo_id todo) (t :: l)) with
    ((if decide (todo_id t = todo_id todo) then todo_toggled t else t)
       :: toggleTodo (todo_id todo) l).
  apply elem_of_cons in Hin as [->|Hin].
  - rewrite decide_True by done.
    destruct (counts_toggle_other l (todo_id t) Ht) as [Ha Hc].
    unfold activeCount, completedCount in Ha, Hc.
    rewrite !filter_cons. unfold todo_toggled. simpl.
    split; intros ->; simpl; rewrite Ha, Hc; done.
  - assert (Hne : todo_id t ≠ todo_id todo).
    { intros Heq. apply Ht. rewrite Heq. apply list_elem_of_fmap. eauto. }
    rewrite decide_False by done.
    destruct (IH Hnd Hin) as [IH1 IH2].
    rewrite !filter_cons.
    split; intros Hc; [destruct (IH1 Hc) as [Ha Hb] | destruct (IH2 Hc) as [Ha Hb]];
      destruct (todo_completed t); simpl; lia.
Qed.

Lemma commit_matches_optimistic_witness :
  NoDup (map todo_id [mkTodo "a" "A" false 1; mkTodo "b" "B" true 2]) /\
  mkTodo "b" "B" true 2 ∈ [mkTodo "a" "A" false 1; mkTodo "b" "B" true 2] /\
  setTodos_toggle (toggleTodoAction (mkTodo "b" "B" true 2))
    [mkTodo "a" "A" false 1; mkTodo "b" "B" true 2] =
  todo_reducer [mkTodo "a" "A" false 1; mkTodo "b" "B" true 2] (toggle "b").
Proof.
  assert (Hnd : NoDup (map todo_id [mkTodo "a" "A" false 1; mkTodo "b" "B" true 2])).
  { simpl. apply NoDup_cons. split.
    - intros H. apply list_elem_of_singleton in H. done.
    - apply NoDup_singleton. }
  assert (Hin : mkTodo "b" "B" true 2
                  ∈ [mkTodo "a" "A" false 1; mkTodo "b" "B" true 2]).
  { right. left. }
  split; [exact Hnd|]. split; [exact Hin|].
  destruct (commit_matches_optimistic
              [mkTodo "a" "A" false 1; mkTodo "b" "B" true 2]) as (_ & H & _).
  exact (H (mkTodo "b" "B" true 2) Hnd Hin).
Defined.

Lemma toggle_moves_one_item_witness :
  NoDup (map todo_id [mkTodo "a" "A" false 1; mkTodo "b" "B" true 2]) /\
  mkTodo "a" "A" false 1 ∈ [mkTodo "a" "A" false 1; mkTodo "b" "B" true 2] /\
  length (toggleTodo "a" [mkTodo "a" "A" false 1; mkTodo "b" "B" true 2]) = 2.
Proof.
  assert (Hnd : NoDup (map todo_id [mkTodo "a" "A" false 1; mkTodo "b" "B" true 2])).
  { simpl. apply NoDup_cons. split.
    - intros H. apply list_elem_of_singleton in H. done.
    - apply NoDup_singleton. }
  assert (Hin : mkTodo "a" "A" false 1
                  ∈ [mkTodo "a" "A" false 1; mkTodo "b" "B" true 2]).
  { left. }
  split; [exact Hnd|]. split; [exact Hin|].
  exact (proj1 (toggle_moves_one_item
           [mkTodo "a" "A" false 1; mkTodo "b" "B" true 2]
           (mkTodo "a" "A" false 1) Hnd Hin)).
Defined.

(** X19.  Adding an item and then removing it is a round trip when its id
    is new to the list: [removeTodo] after [addTodo] gives back the list of
    [TodoList], and a pending [remove] after a pending [add] of the item
    gives back the optimistic list.  When the id is already in the list the
    removal takes the older items with the id as well. *)
Theorem add_then_remove_round_trip (prev : list Todo) uuid now text :
  uuid ∉ map todo_id prev ->
  removeTodo uuid (addTodo uuid now text prev) = prev /\
  (forall todo, todo_id todo = uuid ->
     todo_reducer (todo_reducer prev (add todo)) (remove uuid) = prev) /\
  (forall l, uuid ∉ map todo_id (removeTodo uuid (addTodo uuid now text l))).
Proof.
  intros Hn.
  assert (Hkeep : filter (λ t, todo_id t ≠ uuid) prev = prev).
  { apply (todo_reducer_absent prev uuid (remove uuid)); [by right | done]. }
  split; [|split].
  - unfold removeTodo, addTodo. rewrite filter_cons. simpl.
    destruct (decide (uuid ≠ uuid)); [done | exact Hkeep].
  - intros todo Hid. simpl. rewrite filter_cons.
    destruct (decide (todo_id todo ≠ uuid)); [done | exact Hkeep].
  - intros l [t [Heq [Hne _]%list_elem_of_filter]]%list_elem_of_fmap. done.
Qed.

Lemma add_then_remove_round_trip_witness :
  ("u" ∉ map todo_id [mkTodo "a" "A" false 1]) /\
  removeTodo "u" (addTodo "u" 2 "B" [mkTodo "a" "A" false 1])
    = [mkTodo "a" "A" false 1].
Proof.
  assert (H : "u" ∉ map todo_id [mkTodo "a" "A" false 1]).
  { simpl. intros Hin. apply list_elem_of_singleton in Hin. done. }
  split; [exact H|].
  exact (proj1 (add_then_remove_round_trip [mkTodo "a" "A" false 1] "u" 2 "B" H)).
Defined.

End Todos.

(** ** The task service and [TasksFeature] *)

Module TaskService.

(** The values the properties of a task hold: [undefined], strings (the
    priority is one of them), booleans, and the integers [Date.now()]
    returns. *)
Inductive value : Type :=
| VUndefined
| VString (s : string)
| VBoolean (b : bool)
| VNumber (n : Z).

#[global] Instance value_eq_dec : EqDecision value.
Proof. solve_decision. Defined.

(** A task at run time is an object: its own properties and their values.
    [updateTask] builds such objects with only some of the properties of
    [Task] and casts them to [Task]. *)
Abbreviation object := (gmap string value).

(** [o.k] *)
Definition get (o : object) (k : string) : value := default VUndefined (o !! k).

(** The truth value [!v] negates. *)
Definition truthy (v : value) : bool :=
  match v with
  | VUndefined => false
  | VString s => negb (String.eqb s "")
  | VBoolean b => b
  | VNumber n => negb (Z.eqb n 0)
  end.

(** [Events] of [eventBus.ts] *)
Definition TASK_CREATED : string := "task:created".
Definition TASK_UPDATED : string := "task:updated".
Definition TASK_DELETED : string := "task:deleted".
Definition THEME_CHANGED : string := "theme:changed".
Definition USER_ACTION : string := "user:action".

(** The object literal of [createTask].  [id] is the text the template
    literal produced, [created] and [updated] are what the two calls of
    [Date.now()] returned, [description] is [undefined] when the argument
    was left out. *)
Definition new_task (id : string) (created updated : Z) (title : string)
    (description : value) : object :=
  <["id" := VString id]> (
  <["title" := VString title]> (
  <["description" := description]> (
  <["completed" := VBoolean false]> (
  <["priority" := VString "medium"]> (
  <["createdAt" := VNumber created]> (
  <["updatedAt" := VNumber updated]> ∅)))))).

(** [{ id, ...updates, updatedAt: Date.now() }] *)
Definition updated_task (id : value) (updates : object) (now : Z) : object :=
  <["updatedAt" := VNumber now]> (updates ∪ {["id" := id]}).

(** The argument [toggleTask] gives to [updateTask]:
    [{ completed: !task.completed }] *)
Definition toggle_updates (task : object) : object :=
  {["completed" := VBoolean (negb (truthy (get task "completed")))]}.

(** [batchUpdateTasks], after the delay; [now i] is what [Date.now()]
    returned for the element at index [i]. *)
Definition batchUpdateTasks (taskIds : list string) (updates : object)
    (now : nat -> Z) : list object :=
  imap (λ i id, updated_task (VString id) updates (now i)) taskIds.

Section Services.
Context {W : Type}.
Variable code : nat -> object -> Bus.prog (Data:=object) (W:=W).

(** What a call of a service leaves: how its promise settles, the bus and
    the log.  A service rejects when its [emit] throws. *)
Definition result (A : Type) : Type :=
  option (TaskInput.settled A * Bus.state (W:=W) * list (Bus.entry (Data:=object))).

Definition settle {A : Type} (v : A)
    (emitted : option (Bus.outcome * Bus.state (W:=W)
                       * list (Bus.entry (Data:=object))))
  : result A :=
  match emitted with
  | None => None
  | Some (Bus.Returned, s', tr) => Some (TaskInput.fulfilled v, s', tr)
  | Some (Bus.Threw, s', tr) => Some (TaskInput.rejected, s', tr)
  end.

(** [createTask], after the delay: the task it resolves with, the bus and
    the log after [eventBus.emit(Events.TASK_CREATED, task)]. *)
Definition createTask (fuel : nat) (id : string) (created updated : Z)
    (title : string) (description : value) (s : Bus.state) : result object :=
  let task := new_task id created updated title description in
  settle task (Bus.publish code fuel TASK_CREATED task s).

(** [updateTask], after the delay. *)
Definition updateTask (fuel : nat) (id : value) (updates : object) (now : Z)
    (s : Bus.state) : result object :=
  let updatedTask := updated_task id updates now in
  settle updatedTask (Bus.publish code fuel TASK_UPDATED updatedTask s).

(** [toggleTask] *)
Definition toggleTask (fuel : nat) (task : object) (now : Z) (s : Bus.state)
  : result object :=
  updateTask fuel (get task "id") (toggle_updates task) now s.

(** [deleteTask], after the delay. *)
Definition deleteTask (fuel : nat) (id : string) (s : Bus.state) : result unit :=
  settle tt (Bus.publish code fuel TASK_DELETED {["id" := VString id]} s).

End Services.



Definition handleDelete (id : string) (prev : list object) : list object :=
  filter (λ t, get t "id" ≠ VString id) prev.

(** *** Facts *)

Lemma get_updated_task id updates now k :
  get (updated_task id updates now) k =
  if decide (k = "updatedAt") then VNumber now
  else match updates !! k with
       | Some v => v
       | None => if decide (k = "id") then id else VUndefined
       end.
Proof.
  unfold get, updated_task. destruct (decide (k = "updatedAt")) as [->|Hne].
  - by rewrite lookup_insert_eq.
  - rewrite lookup_insert_ne by done. rewrite lookup_union.
    destruct (updates !! k) as [v|] eqn:Hk; simpl.
    + by destruct ({["id" := id]} !! k).
    + destruct (decide (k = "id")) as [->|Hid].
      * by rewrite lookup_singleton_eq.
      * by rewrite lookup_singleton_ne.
Qed.


Lemma batchUpdateTasks_lookup taskIds updates now i :
  batchUpdateTasks taskIds updates now !! i =
  (λ id, updated_task (VString id) updates (now i)) <$> taskIds !! i.
Proof. unfold batchUpdateTasks. by rewrite list_lookup_imap. Qed.

(** X13.  [batchUpdateTasks] resolves with one object per id, in the order
    of the ids.  Each object carries the properties of [updates] and the
    time of its update; its [id] is the id it was made for, unless [updates]
    has an [id] of its own, which then replaces the id in every object. *)
Theorem batchUpdateTasks_one_object_per_id taskIds updates now :
  length (batchUpdateTasks taskIds updates now) = length taskIds /\
  (forall i id o,
     taskIds !! i = Some id ->
     batchUpdateTasks taskIds updates now !! i = Some o ->
     get o "updatedAt" = VNumber (now i) /\
     (forall k v, k ≠ "updatedAt" -> updates !! k = Some v -> get o k = v) /\
     (updates !! "id" = None -> get o "id" = VString id)) /\
  (forall v, updates !! "id" = Some v ->
     Forall (λ o, get o "id" = v) (batchUpdateTasks taskIds updates now)).
Proof.
  split; [|split].
  - unfold batchUpdateTasks. apply length_imap.
  - intros i id o Hi Ho. rewrite batchUpdateTasks_lookup, Hi in Ho.
    simpl in Ho. inversion Ho; subst. split; [|split].
    + by rewrite get_updated_task.
    + intros k v Hk Hv. rewrite get_updated_task, Hv.
      by rewrite decide_False.
    + intros Hnone. rewrite get_updated_task, Hnone. done.
  - intros v Hv. apply Forall_forall. intros o Ho.
    apply list_elem_of_lookup in Ho as [i Ho].
    rewrite batchUpdateTasks_lookup in Ho.
    destruct (taskIds !! i) as [id|]; [|done]. simpl in Ho.
    inversion Ho; subst. rewrite get_updated_task, Hv. done.
Qed.

(** X14.  Each service publishes one event, under its own name, carrying
    the object it resolves with: [createTask] the new task with its seven
    properties, [toggleTask] the object [updateTask] built, [deleteTask] an
    object holding the id.  The callbacks the service calls are the
    subscribers of that event, each once per registration, in order, with
    that object.  No service rejects. *)
Theorem services_publish_what_they_resolve_with {W : Type}
    (code : nat -> object -> Bus.prog (Data:=object) (W:=W)) fuel
    (s : Bus.state) :
  (forall id created updated title description r s' tr,
     createTask code fuel id created updated title description s
       = Some (r, s', tr) ->
     let task := new_task id created updated title description in
     r = TaskInput.fulfilled task /\
     dom task = ({["id"; "title"; "description"; "completed"; "priority";
                   "createdAt"; "updatedAt"]} : gset string) /\
     Bus.top_calls tr = map (λ cb, (cb, task)) (Bus.subscribers s TASK_CREATED)) /\
  (forall task now r s' tr,
     toggleTask code fuel task now s = Some (r, s', tr) ->
     let updated := updated_task (get task "id") (toggle_updates task) now in
     r = TaskInput.fulfilled updated /\
     Bus.top_calls tr = map (λ cb, (cb, updated)) (Bus.subscribers s TASK_UPDATED)) /\
  (forall id r s' tr,
     deleteTask code fuel id s = Some (r, s', tr) ->
     r = TaskInput.fulfilled tt /\
     Bus.top_calls tr =
       map (λ cb, (cb, {["id" := VString id]})) (Bus.subscribers s TASK_DELETED)).
Proof.
  assert (Hsettle : forall (A : Type) (v : A) event d r s' tr,
            Bus.inherited event = false ->
            settle v (Bus.publish code fuel event d s) = Some (r, s', tr) ->
            r = TaskInput.fulfilled v /\
            Bus.top_calls tr = map (λ cb, (cb, d)) (Bus.subscribers s event)).
  { intros A v event d r s' tr Hord. unfold settle.
    destruct (Bus.publish code fuel event d s) as [[[r1 s1] tr1]|] eqn:Hp; [|done].
    pose proof (Bus.publish_returned code _ _ _ _ _ _ _
                  (Bus.events_get_ordinary s _ Hord) Hp) as ->.
    intros H. inversion H; subst. split; [done|].
    by eapply Bus.publish_top_calls. }
  split; [|split].
  - intros id created updated title description r s' tr H task.
    apply Hsettle in H as [-> Htop]; [|done]. split; [done|]. split; [|done].
    unfold task, new_task. rewrite !dom_insert_L, dom_empty_L. set_solver.
  - intros task now r s' tr H updated. by apply Hsettle in H.
  - intros id r s' tr H. by apply Hsettle in H.
Qed.

End TaskService.
